(** * Hyakunin-isshu karuta game: the game engine, the score manager, the
      controller and the poem validator, embedded from the JavaScript
      sources and checked against the written specification.

    Sources embedded here:
    - [public/js/gameEngine.js]   ([fisherYatesShuffle], class [GameEngine])
    - [public/js/scoreManager.js] (class [ScoreManager])
    - [public/js/app.js]          ([startGame], [handleCardClick],
                                   [advanceToNextRound]; the page left out)
    - [src/poemValidator.js]      ([validatePoem], [validatePoemCollection])

    Conventions.  Counters are JavaScript numbers that start at 0 and are
    only incremented by one; they are modelled by [nat] in the engine and by
    [Z] in the score manager, and stay exact up to 2^53 increments.  A number
    that comes in as an argument can be any Number: where the sources
    compute with one, the binary64 operation is written out.  Poem ids are
    integer-valued numbers, modelled by [Z].  A JavaScript string is the
    list of its UTF-16 code units.  [null] and [undefined] results of a
    method that otherwise returns a poem are both [None] (the sources only
    test them for falsiness). *)

From stdpp Require Import base list strings gmap pretty.
From Stdlib Require Import Floats.SpecFloat.

#[local] Set Warnings "-clear-no-such-hyp".

(** ** Strings of the program under scrutiny *)

(** A JavaScript string: its sequence of UTF-16 code units. *)
Definition jsstring := list N.

(** ** Poems *)

Record Poem := {
  id : Z;
  author : jsstring;
  upperVerse : jsstring;
  lowerVerse : jsstring;
}.

#[global] Instance Poem_eq_dec : EqDecision Poem.
Proof. solve_decision. Defined.

(** ** The random source

    [Math.random()] yields a number in the half-open interval from 0 to 1.
    A draw is the rational [dnum / (dnum + dgap + 1)]: every rational of that
    interval has this shape and nothing else does, so no side condition is
    needed.  The generator is global state in JavaScript; here it is a
    stream of draws together with the number of draws already consumed. *)

Record draw := { dnum : nat; dgap : nat }.

(** [Math.floor(d * n)] for a draw [d] and a natural number [n], the
    product taken exactly. *)
Definition floor_scaled (d : draw) (n : nat) : nat :=
  (dnum d * n) `div` (dnum d + dgap d + 1).

Record rng := { draws : nat → draw; consumed : nat }.

Definition Math_random (g : rng) : draw * rng :=
  (draws g (consumed g), {| draws := draws g; consumed := S (consumed g) |}).

(** ** fisherYatesShuffle *)

Section Shuffle.
Context {A : Type}.

(** The three assignments of the loop body:
    [temp = arr[i]; arr[i] = arr[j]; arr[j] = temp].
    Both indices are inside the array whenever the loop runs (lemma
    [shuffle_loop_in_bounds]); outside, where JavaScript would store
    [undefined], the model leaves the array alone. *)
Definition swap (arr : list A) (i j : nat) : list A :=
  match arr !! i, arr !! j with
  | Some temp, Some aj => <[j := temp]> (<[i := aj]> arr)
  | _, _ => arr
  end.

(** [for (let i = start; i > 0; i--) { j = floor(random() * (i + 1)); swap }] *)
Fixpoint shuffle_loop (i : nat) (arr : list A) (g : rng) : list A * rng :=
  match i with
  | 0 => (arr, g)
  | S i' =>
      let '(r, g') := Math_random g in
      let j := floor_scaled r (i + 1) in
      shuffle_loop i' (swap arr i j) g'
  end.

(** [array.slice()] copies; lists are values, so the copy is the list.
    On the empty array [arr.length - 1] is negative in JavaScript and zero
    here: either way the loop body never runs. *)
Definition fisherYatesShuffle (array : list A) (g : rng) : list A * rng :=
  let arr := array in
  shuffle_loop (length arr - 1) arr g.

(** Every array access of a run of the loop lies inside the array. *)
Inductive in_bounds : nat → list A → rng → Prop :=
  | in_bounds_done arr g : in_bounds 0 arr g
  | in_bounds_step i arr g :
      let j := floor_scaled (Math_random g).1 (S i + 1) in
      S i < length arr → j ≤ S i →
      in_bounds i (swap arr (S i) j) (Math_random g).2 →
      in_bounds (S i) arr g.
End Shuffle.

(** ** GameEngine *)

Record GameEngine := {
  _allPoems : list Poem;
  _remainingCards : list Poem;
  _readingOrder : list Poem;
  _currentRound : nat;
  _totalRounds : nat;
  _score : nat;
  _incorrectCount : nat;
  _gameOver : bool;
}.

(** The object returned by [getGameState]. *)
Module GameState.
Record t := {
  remainingCards : list Poem;
  currentPoem : option Poem;
  currentRound : nat;
  totalRounds : nat;
  score : nat;
  incorrectCount : nat;
  isGameOver : bool;
}.
End GameState.

Record Judgment := {
  correct : bool;
  correctCard : option Poem;
}.

(** The constructor throws on an empty array: [None]. *)
Definition new_GameEngine (poems : list Poem) : option GameEngine :=
  if bool_decide (length poems = 0) then None
  else Some {| _allPoems := poems;
               _remainingCards := [];
               _readingOrder := [];
               _currentRound := 0;
               _totalRounds := 0;
               _score := 0;
               _incorrectCount := 0;
               _gameOver := false |}.

Definition getCurrentReadingCard (e : GameEngine) : option Poem :=
  if _gameOver e || bool_decide (_totalRounds e ≤ _currentRound e) then None
  else _readingOrder e !! _currentRound e.

Definition getGameState (e : GameEngine) : GameState.t :=
  {| GameState.remainingCards := _remainingCards e;
     GameState.currentPoem := getCurrentReadingCard e;
     GameState.currentRound := _currentRound e + 1;
     GameState.totalRounds := _totalRounds e;
     GameState.score := _score e;
     GameState.incorrectCount := _incorrectCount e;
     GameState.isGameOver := _gameOver e |}.

Definition isGameOver (e : GameEngine) : bool := _gameOver e.

Definition initGame (e : GameEngine) (g : rng) : GameState.t * GameEngine * rng :=
  let '(readingOrder, g1) := fisherYatesShuffle (_allPoems e) g in
  let '(remaining, g2) := fisherYatesShuffle (_allPoems e) g1 in
  let e' := {| _allPoems := _allPoems e;
               _remainingCards := remaining;
               _readingOrder := readingOrder;
               _currentRound := 0;
               _totalRounds := length readingOrder;
               _score := 0;
               _incorrectCount := 0;
               _gameOver := false |} in
  (getGameState e', e', g2).

Definition selectCard (cardId : Z) (e : GameEngine) : Judgment * GameEngine :=
  if _gameOver e then ({| correct := false; correctCard := None |}, e)
  else
    match getCurrentReadingCard e with
    | None => ({| correct := false; correctCard := None |}, e)
    | Some currentPoem =>
        let isCorrect := bool_decide (cardId = id currentPoem) in
        let e' :=
          if isCorrect then
            {| _allPoems := _allPoems e;
               _remainingCards :=
                 filter (λ card, id card ≠ cardId) (_remainingCards e);
               _readingOrder := _readingOrder e;
               _currentRound := _currentRound e;
               _totalRounds := _totalRounds e;
               _score := _score e + 1;
               _incorrectCount := _incorrectCount e;
               _gameOver := _gameOver e |}
          else
            {| _allPoems := _allPoems e;
               _remainingCards := _remainingCards e;
               _readingOrder := _readingOrder e;
               _currentRound := _currentRound e;
               _totalRounds := _totalRounds e;
               _score := _score e;
               _incorrectCount := _incorrectCount e + 1;
               _gameOver := _gameOver e |} in
        ({| correct := isCorrect; correctCard := Some currentPoem |}, e')
    end.

Definition nextRound (e : GameEngine) : bool * GameEngine :=
  if _gameOver e then (false, e)
  else
    let e1 := {| _allPoems := _allPoems e;
                 _remainingCards := _remainingCards e;
                 _readingOrder := _readingOrder e;
                 _currentRound := _currentRound e + 1;
                 _totalRounds := _totalRounds e;
                 _score := _score e;
                 _incorrectCount := _incorrectCount e;
                 _gameOver := _gameOver e |} in
    if bool_decide (_totalRounds e1 ≤ _currentRound e1)
       || bool_decide (length (_remainingCards e1) = 0)
    then (false, {| _allPoems := _allPoems e1;
                    _remainingCards := _remainingCards e1;
                    _readingOrder := _readingOrder e1;
                    _currentRound := _currentRound e1;
                    _totalRounds := _totalRounds e1;
                    _score := _score e1;
                    _incorrectCount := _incorrectCount e1;
                    _gameOver := true |})
    else (true, e1).

(** *** Sequences of calls made by a client after [initGame] *)

Inductive call :=
  | SelectCard (cardId : Z)
  | NextRound.

Definition exec (c : call) (e : GameEngine) : GameEngine :=
  match c with
  | SelectCard cardId => (selectCard cardId e).2
  | NextRound => (nextRound e).2
  end.

Fixpoint run (cs : list call) (e : GameEngine) : GameEngine :=
  match cs with
  | [] => e
  | c :: cs' => run cs' (exec c e)
  end.

(** The number of [selectCard] calls of a run that find the game not over. *)
Fixpoint judged (cs : list call) (e : GameEngine) : nat :=
  match cs with
  | [] => 0
  | c :: cs' =>
      (match c with
       | SelectCard _ => if _gameOver e then 0 else 1
       | NextRound => 0
       end) + judged cs' (exec c e)
  end.

(** A game created from [poems] and initialised with generator [g]. *)
Definition start (poems : list Poem) (g : rng) : option GameEngine :=
  e0 ← new_GameEngine poems; Some (initGame e0 g).1.2.


(** What holds of every engine state a client can reach from
    [new GameEngine(poems)] followed by [initGame()]. *)
Record reachable_inv (poems : list Poem) (e : GameEngine) : Prop := {
  inv_all : _allPoems e = poems;
  inv_nonempty : poems ≠ [];
  inv_order : _readingOrder e ≡ₚ poems;
  inv_pool : _remainingCards e ⊆+ poems;
  inv_total : _totalRounds e = length poems;
  inv_round : _currentRound e ≤ _totalRounds e;
  inv_live : _gameOver e = false → _currentRound e < _totalRounds e;
}.

(** ** JavaScript numbers

    A Number is an IEEE 754 binary64 value; [spec_float] of the standard
    library, with precision 53 and exponent bound 1024, specifies it. *)

#[global] Instance spec_float_eq_dec : EqDecision spec_float.
Proof. solve_decision. Defined.

Definition Number_div : spec_float → spec_float → spec_float := SFdiv 53 1024.
Definition Number_mul : spec_float → spec_float → spec_float := SFmul 53 1024.

(** The Number nearest to an integer, ties going to the even mantissa. *)
Definition of_Z (z : Z) : spec_float := binary_normalize 53 1024 z 0 false.

(** The integer that a Number of magnitude 2^53 or more stands for (all of
    them are integers). *)
Definition to_Z (x : spec_float) : Z :=
  match x with
  | S754_finite s m e => cond_Zopp s (Z.pos m) * 2 ^ e
  | _ => 0
  end.

(** [a - b] for integer-valued Numbers [a] and [b]: the exact difference
    rounded to the nearest Number.  Every integer up to 2^53 in absolute
    value is a Number, so nothing is rounded there.  (The sources subtract
    a counter from [totalCards]; that difference is never beyond the
    largest Number.) *)
Definition Number_sub (a b : Z) : Z :=
  let d := (a - b)%Z in
  if bool_decide (Z.abs d ≤ 2 ^ 53)%Z then d else to_Z (of_Z d).

(** [Math.round]: the nearest integer, a tie going up; the sign of a zero
    result is that of the argument. *)
Definition Math_round (x : spec_float) : spec_float :=
  match x with
  | S754_finite s m e =>
      let v := cond_Zopp s (Z.pos m) in
      let k := if bool_decide (0 ≤ e)%Z then (v * 2 ^ e)%Z
               else ((2 * v + 2 ^ (- e)) `div` 2 ^ (1 - e))%Z in
      binary_normalize 53 1024 k 0 s
  | _ => x
  end.

(** [Number::toString] on an integer-valued Number, as [join] and template
    literals apply it.  Below 2^53 the text is the decimal numeral.  From
    there on it is made of the shortest digit string [s] (of [k] digits)
    such that [s * 10^(n-k)] still rounds to the Number: for [n] up to 21
    the digits are followed by [n-k] zeros, beyond that the exponent
    notation is used.  [candidate v len k] is the choice of [(s, n)] for a
    given [k], if there is one; [len] is the number of decimal digits of
    [v]. *)
Definition candidate (v : Z) (len k : nat) : option (Z * nat) :=
  let p := (10 ^ Z.of_nat (len - k))%Z in
  let lo := (v `div` p)%Z in
  let hi := (lo + 1)%Z in
  let ok_lo := bool_decide (of_Z (lo * p) = of_Z v) in
  let ok_hi := bool_decide (of_Z (hi * p) = of_Z v) in
  let s :=
    if ok_lo && ok_hi then
      if bool_decide (v - lo * p < hi * p - v)%Z then lo
      else if bool_decide (hi * p - v < v - lo * p)%Z then hi
      else if Z.even lo then lo else hi
    else if ok_lo then lo else hi in
  if ok_lo || ok_hi then
    if bool_decide (s = 10 ^ Z.of_nat k)%Z then Some (1%Z, S len)
    else Some (s, len)
  else None.

Definition exponent_notation (digits : string) (n : nat) : string :=
  match digits with
  | String d "" => String d "" +:+ "e+" +:+ pretty (n - 1)
  | String d rest => String d "" +:+ "." +:+ rest +:+ "e+" +:+ pretty (n - 1)
  | "" => ""
  end.

Fixpoint zeros (n : nat) : string :=
  match n with
  | 0 => ""
  | S n' => "0" +:+ zeros n'
  end.

Definition Number_toString (z : Z) : string :=
  if bool_decide (Z.abs z < 2 ^ 53)%Z then pretty z
  else
    let v := Z.abs z in
    let len := String.length (pretty v) in
    let text :=
      match head (omap (candidate v len) (seq 1 17)) with
      | Some (s, n) =>
          let digits := pretty s in
          if bool_decide (n ≤ 21)
          then digits +:+ zeros (n - String.length digits)
          else exponent_notation digits n
      | None => pretty v
      end in
    if bool_decide (z < 0)%Z then "-" +:+ text else text.

(** ** JavaScript values

    The validator and the score manager test what they are handed, which
    can be any JavaScript value. *)

(** A JavaScript number, as far as the sources tell numbers apart: it is
    integer-valued ([Number.isInteger]), and then [z] is its value (any
    integer up to 2^53 in absolute value, and the integers that binary64
    represents beyond), or it is not (a fraction, NaN, an infinity). *)
Inductive number :=
  | Integer (z : Z)
  | NonInteger.

(** Plain data: the primitives, arrays and plain objects with data
    properties.  An array is the list of its slots up to [length]; a slot
    holds an element or is a hole ([None]), as the slots of [new Array(100)]
    and the middle one of [[1, , 3]] are.  Arrays that [JSON.parse] returns
    have no holes. *)
#[warnings="-register-all"]
Inductive jsval :=
  | JUndefined
  | JNull
  | JBool (b : bool)
  | JNum (n : number)
  | JStr (s : jsstring)
  | JArr (slots : list (option jsval))
  | JObj (props : list (string * jsval)).

Fixpoint lookup_prop (key : string) (props : list (string * jsval)) : jsval :=
  match props with
  | [] => JUndefined
  | (k, v) :: rest => if decide (k = key) then v else lookup_prop key rest
  end.

(** Property read [v.key] on an object, and [v?.key] on any value, for the
    keys the validator reads: a missing property, and such a property of a
    primitive or of an array, is [undefined]. *)
Definition get (v : jsval) (key : string) : jsval :=
  match v with
  | JObj props => lookup_prop key props
  | _ => JUndefined
  end.

(** WhiteSpace and LineTerminator code points of ECMAScript, which
    [String.prototype.trim] strips: TAB, LF, VT, FF, CR, SP, NBSP, U+1680,
    U+2000 to U+200A, U+2028, U+2029, U+202F, U+205F, U+3000, U+FEFF. *)
Definition is_space (c : N) : bool :=
  bool_decide (c ∈ [9; 10; 11; 12; 13; 32; 160; 5760; 8232; 8233; 8239; 8287;
                    12288; 65279]%N)
  || (bool_decide (8192 ≤ c)%N && bool_decide (c ≤ 8202)%N).

Fixpoint trimStart (s : jsstring) : jsstring :=
  match s with
  | [] => []
  | c :: rest => if is_space c then trimStart rest else s
  end.

Definition trimEnd (s : jsstring) : jsstring := reverse (trimStart (reverse s)).

Definition trim (s : jsstring) : jsstring := trimEnd (trimStart s).

Record Validation := {
  valid : bool;
  errors : list string;
}.

(** The [id] rule of [validatePoem]. *)
Definition check_id (poem : jsval) : list string :=
  match get poem "id" with
  | JNum (Integer z) =>
      if bool_decide (z < 1)%Z || bool_decide (100 < z)%Z
      then ["id must be between 1 and 100"] else []
  | _ => ["id must be an integer"]
  end.

(** The rule the source writes out three times, for [author], [upperVerse]
    and [lowerVerse]. *)
Definition check_text (field : string) (poem : jsval) : list string :=
  match get poem field with
  | JStr s =>
      if bool_decide (length (trim s) = 0)
      then [field +:+ " must be a non-empty string"] else []
  | _ => [field +:+ " must be a string"]
  end.

Definition validatePoem (poem : jsval) : Validation :=
  match poem with
  | JObj _ =>
      let errors :=
        check_id poem ++ check_text "author" poem
        ++ check_text "upperVerse" poem ++ check_text "lowerVerse" poem in
      {| valid := bool_decide (length errors = 0); errors := errors |}
  | JArr _ =>
      {| valid := false;
         errors := ["Poem must be a plain object, not an array"] |}
  | _ => {| valid := false; errors := ["Poem must be a non-null object"] |}
  end.

(** The three variables the [forEach] callback of [validatePoemCollection]
    updates. *)
Record scan := {
  scan_errors : list string;
  idSet : gset Z;
  duplicateIds : list Z;
}.

Definition index_prefix (index : nat) (err : string) : string :=
  "Poem at index " +:+ pretty index +:+ ": " +:+ err.

(** One call of the callback. *)
Definition visit (index : nat) (poem : jsval) (st : scan) : scan :=
  let result := validatePoem poem in
  let errs :=
    if valid result then scan_errors st
    else scan_errors st ++ (index_prefix index <$> errors result) in
  match get poem "id" with
  | JNum (Integer z) =>
      if bool_decide (z ∈ idSet st)
      then {| scan_errors := errs; idSet := idSet st;
              duplicateIds := duplicateIds st ++ [z] |}
      else {| scan_errors := errs; idSet := {[z]} ∪ idSet st;
              duplicateIds := duplicateIds st |}
  | _ => {| scan_errors := errs; idSet := idSet st;
            duplicateIds := duplicateIds st |}
  end.

(** [poems.forEach]: the callback is called for the elements that are
    there, with their indices; a hole is passed over. *)
Fixpoint forEach (poems : list (option jsval)) (index : nat) (st : scan)
    : scan :=
  match poems with
  | [] => st
  | Some poem :: rest => forEach rest (S index) (visit index poem st)
  | None :: rest => forEach rest (S index) st
  end.

(** What [forEach] does at one slot, the errors it adds there, and whether
    it adds none. *)
Definition visit_slot (index : nat) (slot : option jsval) (st : scan) : scan :=
  match slot with
  | Some poem => visit index poem st
  | None => st
  end.

Definition slot_errors (index : nat) (slot : option jsval) : list string :=
  match slot with
  | Some poem =>
      if valid (validatePoem poem) then []
      else index_prefix index <$> errors (validatePoem poem)
  | None => []
  end.

Definition slot_valid (slot : option jsval) : bool :=
  match slot with
  | Some poem => valid (validatePoem poem)
  | None => true
  end.

(** [duplicateIds.join(', ')]. *)
Definition join_ids (ids : list Z) : string :=
  String.concat ", " (Number_toString <$> ids).

(** [poems.length] counts the holes as well; it is below 2^32 and prints in
    decimal. *)
Definition validatePoemCollection (poems : jsval) : Validation :=
  match poems with
  | JArr slots =>
      let errors0 :=
        if bool_decide (length slots ≠ 100)
        then ["Poem collection must contain exactly 100 poems, but got "
              +:+ pretty (length slots)]
        else [] in
      let st := forEach slots 0 {| scan_errors := errors0; idSet := ∅;
                                   duplicateIds := [] |} in
      let errors :=
        if bool_decide (0 < length (duplicateIds st))
        then scan_errors st
             ++ ["Duplicate poem IDs found: " +:+ join_ids (duplicateIds st)]
        else scan_errors st in
      {| valid := bool_decide (length errors = 0); errors := errors |}
  | _ => {| valid := false; errors := ["Poem collection must be an array"] |}
  end.

(** The value of [poem.id] when it is an integer. *)
Definition integer_id (poem : jsval) : option Z :=
  match get poem "id" with
  | JNum (Integer z) => Some z
  | _ => None
  end.

(** The value of [slot.id] for the element in a slot, when there is one and
    the value is an integer. *)
Definition slot_id (slot : option jsval) : option Z := slot ≫= integer_id.

(** ** ScoreManager *)

Module ScoreManager.
Record t := {
  _totalCards : Z;
  _correct : Z;
  _incorrect : Z;
}.

(** The constructor throws unless [totalCards] is a number, an integer and
    not negative. *)
Definition new (totalCards : jsval) : option t :=
  match totalCards with
  | JNum (Integer n) =>
      if bool_decide (n < 0)%Z then None
      else Some {| _totalCards := n; _correct := 0; _incorrect := 0 |}
  | _ => None
  end.

(** The guard in the source has an empty body: the increment is
    unconditional. *)
Definition addCorrect (s : t) : t :=
  {| _totalCards := _totalCards s;
     _correct := _correct s + 1;
     _incorrect := _incorrect s |}.

Definition addIncorrect (s : t) : t :=
  {| _totalCards := _totalCards s;
     _correct := _correct s;
     _incorrect := _incorrect s + 1 |}.

(** The [remaining] field of [getScore()]. *)
Definition remaining (s : t) : Z :=
  Z.max 0 (Number_sub (_totalCards s) (_correct s)).

(** [getAccuracy()], which is also the [accuracy] field of [getScore()]. *)
Definition getAccuracy (s : t) : spec_float :=
  let totalAttempts := (_correct s + _incorrect s)%Z in
  if bool_decide (totalAttempts = 0%Z) then S754_zero false
  else
    Number_div
      (Math_round
         (Number_mul (Number_div (of_Z (_correct s)) (of_Z totalAttempts))
                     (of_Z 10000)))
      (of_Z 100).

(** [reset(totalCards)]; [JUndefined] as argument is an omitted argument,
    [None] as result is the thrown error, which leaves the object as it
    was. *)
Definition reset (totalCards : jsval) (s : t) : option t :=
  match totalCards with
  | JUndefined =>
      Some {| _totalCards := _totalCards s; _correct := 0; _incorrect := 0 |}
  | JNum (Integer n) =>
      if bool_decide (n < 0)%Z then None
      else Some {| _totalCards := n; _correct := 0; _incorrect := 0 |}
  | _ => None
  end.
End ScoreManager.

(** Sample data for the examples below. *)
Definition sample_poem (n : Z) : Poem :=
  {| id := n; author := [20316%N]; upperVerse := [19978%N];
     lowerVerse := [19979%N] |}.

Definition sample_rng : rng :=
  {| draws := λ k, {| dnum := k; dgap := 2 |}; consumed := 0 |}.

Definition sample_poems : list Poem :=
  [sample_poem 1; sample_poem 2; sample_poem 3].

(** [new GameEngine(sample_poems)] followed by [initGame()]. *)
Definition sample_game : GameEngine :=
  (initGame {| _allPoems := sample_poems; _remainingCards := [];
               _readingOrder := []; _currentRound := 0; _totalRounds := 0;
               _score := 0; _incorrectCount := 0; _gameOver := false |}
            sample_rng).1.2.

Definition sample_json (n : Z) : jsval :=
  JObj [("id", JNum (Integer n)); ("author", JStr [20316%N]);
        ("upperVerse", JStr [19978%N]); ("lowerVerse", JStr [19979%N])].

(** A hundred valid poems with ids 1 to 100. *)
Definition full_collection : jsval :=
  JArr (Some <$> (sample_json <$> (Z.of_nat <$> seq 1 100))).

(** A hundred valid poems, the id 1 used twice (and 100 missing). *)
Definition duplicate_collection : jsval :=
  JArr (Some <$> (sample_json <$> (Z.of_nat <$> 1 :: seq 1 99))).

(** A hundred elements, the third one [null]. *)
Definition broken_collection : jsval :=
  JArr (Some <$> <[2 := JNull]> (sample_json <$> (Z.of_nat <$> seq 1 100))).

(** [new Array(100)]: a hundred holes. *)
Definition empty_slots : jsval := JArr (replicate 100 None).

(** Ninety-nine valid poems behind one hole. *)
Definition short_collection : jsval :=
  JArr (None :: (Some <$> (sample_json <$> (Z.of_nat <$> seq 1 99)))).

(** * Further embedded code *)

(** ** The rest of the engine *)

(** The object returned by [getScoreData], without its [accuracy] field
    (the formula of [ScoreManager.getAccuracy], applied to the engine's
    counters). *)
Module ScoreData.
Record t := {
  score : nat;
  incorrectCount : nat;
  remaining : nat;
}.
End ScoreData.

Definition getScoreData (e : GameEngine) : ScoreData.t :=
  {| ScoreData.score := _score e;
     ScoreData.incorrectCount := _incorrectCount e;
     ScoreData.remaining := length (_remainingCards e) |}.

#[global] Instance call_eq_dec : EqDecision call.
Proof. solve_decision. Defined.

(** The number of [selectCard] calls of a run that answered
    [correct: true]. *)
Fixpoint answered_correct (cs : list call) (e : GameEngine) : nat :=
  match cs with
  | [] => 0
  | c :: cs' =>
      (match c with
       | SelectCard cardId => if correct (selectCard cardId e).1 then 1 else 0
       | NextRound => 0
       end) + answered_correct cs' (exec c e)
  end.

(** The number of [nextRound] calls of a run that find the game not over. *)
Fixpoint advances (cs : list call) (e : GameEngine) : nat :=
  match cs with
  | [] => 0
  | c :: cs' =>
      (match c with
       | SelectCard _ => 0
       | NextRound => if _gameOver e then 0 else 1
       end) + advances cs' (exec c e)
  end.

(** A player who takes the right card in every round: for each poem of the
    reading order, [selectCard] with its id, then [nextRound]. *)
Definition perfect_play (order : list Poem) : list call :=
  order ≫= λ p, [SelectCard (id p); NextRound].

(** ** Runs of the score manager *)

Inductive score_call :=
  | AddCorrect
  | AddIncorrect.

Definition score_exec (c : score_call) (s : ScoreManager.t) : ScoreManager.t :=
  match c with
  | AddCorrect => ScoreManager.addCorrect s
  | AddIncorrect => ScoreManager.addIncorrect s
  end.

Fixpoint score_run (cs : list score_call) (s : ScoreManager.t)
    : ScoreManager.t :=
  match cs with
  | [] => s
  | c :: cs' => score_run cs' (score_exec c s)
  end.

#[global] Instance score_call_eq_dec : EqDecision score_call.
Proof. solve_decision. Defined.

(** ** app.js: the controller

    The controller keeps three module-level variables that matter to the
    game: the engine, the score manager and the flag [isProcessing].  Calls
    into the renderer only touch the page and are left out.  A feedback
    animation is a promise; the function passed to its [then] is the
    continuation that runs when the animation is over. *)

Module App.
Record t := {
  gameEngine : GameEngine;
  scoreManager : ScoreManager.t;
  isProcessing : bool;
}.

(** What [handleCardClick] passes to [then]: [advanceToNextRound] after the
    feedback for a right card, the release of the flag after the feedback
    for a wrong one. *)
Inductive continuation :=
  | AdvanceToNextRound
  | Release.

(** The function [startGame] passes to [fetchPoems().then]: [None] when the
    engine's constructor throws, in which case the [catch] handler shows an
    error and the variables keep their values. *)
Definition startGame_then (poems : list Poem) (g : rng) : option (t * rng) :=
  e0 ← new_GameEngine poems;
  sm ← ScoreManager.new (JNum (Integer (Z.of_nat (length poems))));
  let '(_, e, g') := initGame e0 g in
  Some ({| gameEngine := e; scoreManager := sm; isProcessing := false |}, g').

Definition handleCardClick (cardId : Z) (a : t) : t * option continuation :=
  if isProcessing a then (a, None)
  else
    let '(result, e') := selectCard cardId (gameEngine a) in
    if correct result then
      ({| gameEngine := e';
          scoreManager := ScoreManager.addCorrect (scoreManager a);
          isProcessing := true |}, Some AdvanceToNextRound)
    else
      ({| gameEngine := e';
          scoreManager := ScoreManager.addIncorrect (scoreManager a);
          isProcessing := true |}, Some Release).

(** Returns whether the game continues, as [nextRound] reported it. *)
Definition advanceToNextRound (a : t) : bool * t :=
  let '(continues, e') := nextRound (gameEngine a) in
  (continues, {| gameEngine := e'; scoreManager := scoreManager a;
                 isProcessing := false |}).

Definition resume (k : continuation) (a : t) : t :=
  match k with
  | AdvanceToNextRound => (advanceToNextRound a).2
  | Release => {| gameEngine := gameEngine a;
                  scoreManager := scoreManager a;
                  isProcessing := false |}
  end.

(** What the browser delivers during a game: a click on a card, or the end
    of the oldest running feedback animation.  A session is what happens
    between one completion of [startGame] and the next; a completion of
    [startGame] is not an event of the session, it opens a new one.
    [startGame] neither looks at [isProcessing] nor cancels a feedback that
    is running, so the continuations waiting when it completes are still
    waiting in the session it opens. *)
Inductive event :=
  | Click (cardId : Z)
  | Settle.

(** The controller together with the continuations still waiting. *)
Record session := {
  app : t;
  pending : list continuation;
}.

Definition deliver (ev : event) (s : session) : session :=
  match ev with
  | Click cardId =>
      let '(a, k) := handleCardClick cardId (app s) in
      {| app := a; pending := pending s ++ option_list k |}
  | Settle =>
      match pending s with
      | [] => s
      | k :: rest => {| app := resume k (app s); pending := rest |}
      end
  end.

Fixpoint play (evs : list event) (s : session) : session :=
  match evs with
  | [] => s
  | ev :: evs' => play evs' (deliver ev s)
  end.

(** The session right after [startGame] has set everything up;
    [left_over] are the continuations of the session before that have not
    run yet (none when the page has just been loaded, or when the player
    restarts from the end screen after the last feedback is over). *)
Definition opening (poems : list Poem) (g : rng)
    (left_over : list continuation) : option session :=
  a ← startGame_then poems g; Some {| app := a.1; pending := left_over |}.

(** The clicks of a run that reached [selectCard] with the game over. *)
Fixpoint late_clicks (evs : list event) (s : session) : nat :=
  match evs with
  | [] => 0
  | ev :: evs' =>
      (match ev with
       | Click _ =>
           if isProcessing (app s) then 0
           else if _gameOver (gameEngine (app s)) then 1 else 0
       | Settle => 0
       end) + late_clicks evs' (deliver ev s)
  end.
End App.

(** The list [duplicateIds] as [validatePoemCollection] has built it when
    its loop over [elems] is done. *)
Definition duplicates_found (elems : list (option jsval)) : list Z :=
  duplicateIds (forEach elems 0 {| scan_errors := []; idSet := ∅;
                                   duplicateIds := [] |}).

(** What holds of every session of the controller: the engine is in a
    reachable state, the score manager was built for the poems and counts
    the same correct answers. *)
Definition app_counts_inv (poems : list Poem) (s : App.session) : Prop :=
  let a := App.app s in
  reachable_inv poems (App.gameEngine a)
  ∧ ScoreManager._totalCards (App.scoreManager a) = Z.of_nat (length poems)
  ∧ ScoreManager._correct (App.scoreManager a)
    = Z.of_nat (_score (App.gameEngine a)).

(** What holds in addition of a session that was opened with nothing left
    over: at most one continuation waits, namely exactly while
    [isProcessing] is set. *)
Definition app_inv (poems : list Poem) (s : App.session) : Prop :=
  let a := App.app s in
  reachable_inv poems (App.gameEngine a)
  ∧ ScoreManager._totalCards (App.scoreManager a) = Z.of_nat (length poems)
  ∧ ScoreManager._correct (App.scoreManager a)
    = Z.of_nat (_score (App.gameEngine a))
  ∧ match App.pending s with
    | [] => App.isProcessing a = false
    | [App.Release] => App.isProcessing a = true
    | [App.AdvanceToNextRound] =>
        App.isProcessing a = true ∧ _gameOver (App.gameEngine a) = false
    | _ => False
    end.

(** What holds in addition when the ids are pairwise distinct: the score is
    the round index (plus one while the advance after a right card waits),
    the cards on the field are, up to order, the poems not yet read with
    success, and the game is over exactly when the rounds are used up. *)
Definition app_field_inv (s : App.session) : Prop :=
  let e := App.gameEngine (App.app s) in
  _remainingCards e ≡ₚ drop (_score e) (_readingOrder e)
  ∧ match App.pending s with
    | [App.AdvanceToNextRound] => _score e = _currentRound e + 1
    | _ => _score e = _currentRound e
           ∧ (_gameOver e = true ↔ _currentRound e = _totalRounds e)
    end.

Definition sample_session : App.session :=
  {| App.app := {| App.gameEngine := sample_game;
                   App.scoreManager :=
                     {| ScoreManager._totalCards := 3;
                        ScoreManager._correct := 0;
                        ScoreManager._incorrect := 0 |};
                   App.isProcessing := false |};
     App.pending := [] |}.

(** ** Runs and figures of the score manager *)

(** [new ScoreManager(total)] followed by [right] calls of [addCorrect] and
    [wrong] calls of [addIncorrect]. *)
Definition tally (total right wrong : nat) : option ScoreManager.t :=
  score_run (replicate right AddCorrect ++ replicate wrong AddIncorrect)
  <$> ScoreManager.new (JNum (Integer (Z.of_nat total))).

(** The Number that is written with two decimals as [k / 100]. *)
Definition hundredths (k : Z) : spec_float := Number_div (of_Z k) (of_Z 100).

(** Modelled from the spec: the percentage [correct / (correct + incorrect)
    * 100] rounded to two decimal places, counted in hundredths; a value
    halfway between two hundredths goes up in the first reading, to the even
    hundredth in the second. *)
Definition percent_half_up (correct incorrect : Z) : Z :=
  ((2 * 10000 * correct + (correct + incorrect))
   `div` (2 * (correct + incorrect)))%Z.


(** Whether [getAccuracy] gives the percentage rounded half up for every
    tally of [attempts] calls, and for every smaller number of attempts. *)
Definition rounds_half_up (correct attempts : nat) : bool :=
  bool_decide
    (Math_round
       (Number_mul (Number_div (of_Z (Z.of_nat correct))
                               (of_Z (Z.of_nat attempts))) (of_Z 10000))
     = of_Z (percent_half_up (Z.of_nat correct)
                             (Z.of_nat attempts - Z.of_nat correct))).

Definition rounds_half_up_upto (attempts : nat) : bool :=
  forallb (λ t, forallb (λ c, rounds_half_up c t) (seq 0 (S t)))
          (seq 1 attempts).

(** * Properties of the shuffle *)

Lemma floor_scaled_lt (d : draw) (n : nat) : 0 < n → floor_scaled d n < n.
Proof.
  intros Hn. unfold floor_scaled.
  apply Nat.Div0.div_lt_upper_bound. nia.
Qed.

(** Every index below [n] is the outcome of some draw, so quantifying over
    generators covers every sequence of index choices. *)
Lemma floor_scaled_onto (n j : nat) :
  j < n → floor_scaled {| dnum := j; dgap := n - 1 - j |} n = j.
Proof.
  intros Hj. unfold floor_scaled; simpl.
  replace (j + (n - 1 - j) + 1) with n by lia.
  apply Nat.div_mul. lia.
Qed.

Section ShuffleFacts.
Context {A : Type}.
Implicit Types (arr : list A) (g : rng).

Lemma swap_in_range arr i j :
  i < length arr → j < length arr →
  ∃ ai aj, arr !! i = Some ai ∧ arr !! j = Some aj
           ∧ swap arr i j = <[j := ai]> (<[i := aj]> arr).
Proof.
  intros [ai Hi]%lookup_lt_is_Some_2 [aj Hj]%lookup_lt_is_Some_2.
  exists ai, aj. unfold swap. by rewrite Hi, Hj.
Qed.

Lemma swap_length arr i j : length (swap arr i j) = length arr.
Proof.
  unfold swap. destruct (arr !! i), (arr !! j); try done.
  by rewrite !length_insert.
Qed.

Lemma swap_Permutation arr i j : swap arr i j ≡ₚ arr.
Proof.
  unfold swap.
  destruct (arr !! i) as [ai|] eqn:Hi; [|done].
  destruct (arr !! j) as [aj|] eqn:Hj; [|done].
  by apply Permutation_insert_swap.
Qed.

Lemma shuffle_loop_Permutation i arr g : (shuffle_loop i arr g).1 ≡ₚ arr.
Proof.
  revert arr g. induction i as [|i IH]; intros arr g; simpl; [done|].
  rewrite IH. apply swap_Permutation.
Qed.

Lemma shuffle_loop_in_bounds i arr g : i < length arr → in_bounds i arr g.
Proof.
  revert arr g. induction i as [|i IH]; intros arr g Hi; [constructor|].
  constructor; [done| |].
  - pose proof (floor_scaled_lt (Math_random g).1 (S i + 1)). lia.
  - apply IH. rewrite swap_length. lia.
Qed.

Lemma fisherYatesShuffle_in_bounds (array : list A) g :
  array ≠ [] → in_bounds (length array - 1) array g.
Proof.
  intros Hne. apply shuffle_loop_in_bounds.
  destruct array; [done|simpl; lia].
Qed.

Lemma fisherYatesShuffle_Permutation (array : list A) g :
  (fisherYatesShuffle array g).1 ≡ₚ array.
Proof. apply shuffle_loop_Permutation. Qed.
End ShuffleFacts.

(** * Properties of the engine *)

Lemma initGame_fields (e : GameEngine) (g : rng) :
  let e' := (initGame e g).1.2 in
  _allPoems e' = _allPoems e
  ∧ _readingOrder e' ≡ₚ _allPoems e
  ∧ _remainingCards e' ≡ₚ _allPoems e
  ∧ _totalRounds e' = length (_allPoems e)
  ∧ _currentRound e' = 0 ∧ _score e' = 0 ∧ _incorrectCount e' = 0
  ∧ _gameOver e' = false.
Proof.
  unfold initGame.
  pose proof (fisherYatesShuffle_Permutation (_allPoems e) g) as H1.
  destruct (fisherYatesShuffle (_allPoems e) g) as [ro g1]; simpl in H1.
  pose proof (fisherYatesShuffle_Permutation (_allPoems e) g1) as H2.
  destruct (fisherYatesShuffle (_allPoems e) g1) as [rc g2]; simpl in *.
  by rewrite H1.
Qed.

Lemma new_GameEngine_Some (poems : list Poem) (e0 : GameEngine) :
  new_GameEngine poems = Some e0 → poems ≠ [] ∧ _allPoems e0 = poems.
Proof.
  unfold new_GameEngine. case_bool_decide as Hlen; [done|].
  intros [= <-]. split; [|done]. by intros ->.
Qed.

Lemma start_Some (poems : list Poem) (g : rng) :
  poems ≠ [] → is_Some (start poems g).
Proof.
  intros Hne. unfold start, new_GameEngine.
  rewrite bool_decide_eq_false_2; [by eexists|].
  by destruct poems.
Qed.

Lemma start_inv (poems : list Poem) (g : rng) (e : GameEngine) :
  start poems g = Some e →
  reachable_inv poems e ∧ _remainingCards e ≡ₚ poems
  ∧ _currentRound e = 0 ∧ _score e = 0 ∧ _incorrectCount e = 0
  ∧ _gameOver e = false.
Proof.
  unfold start. destruct (new_GameEngine poems) as [e0|] eqn:He0; [|done].
  simpl. intros [= <-].
  apply new_GameEngine_Some in He0 as [Hne Hall].
  destruct (initGame_fields e0 g) as (Ha & Ho & Hp & Ht & Hr & Hs & Hi & Hg).
  rewrite Hall in *.
  split_and!; try done.
  split; try done.
  - by rewrite Hp.
  - lia.
  - intros _. rewrite Hr, Ht. destruct poems; [done|simpl; lia].
Qed.

(** While the game is on, the prompt exists and is one of the poems. *)
Lemma live_prompt (poems : list Poem) (e : GameEngine) :
  reachable_inv poems e → _gameOver e = false →
  ∃ prompt, getCurrentReadingCard e = Some prompt
            ∧ _readingOrder e !! _currentRound e = Some prompt
            ∧ prompt ∈ poems.
Proof.
  intros Hinv Hlive.
  pose proof (inv_live _ _ Hinv Hlive) as Hlt.
  destruct (lookup_lt_is_Some_2 (_readingOrder e) (_currentRound e))
    as [prompt Hp].
  { rewrite (inv_order _ _ Hinv), <- (inv_total _ _ Hinv). done. }
  exists prompt. unfold getCurrentReadingCard. rewrite Hlive; simpl.
  rewrite bool_decide_eq_false_2 by lia.
  split_and!; try done.
  rewrite <- (inv_order _ _ Hinv). by eapply list_elem_of_lookup_2.
Qed.

Lemma selectCard_inv (poems : list Poem) (cardId : Z) (e : GameEngine) :
  reachable_inv poems e → reachable_inv poems (selectCard cardId e).2.
Proof.
  intros Hinv. unfold selectCard.
  destruct (_gameOver e) eqn:Hover; [done|].
  destruct (getCurrentReadingCard e) as [prompt|]; [|done].
  destruct Hinv.
  case_bool_decide; simpl; split; simpl; try done; try (intros _; auto).
  etransitivity; [|done]. apply sublist_submseteq, sublist_filter.
Qed.

Lemma nextRound_inv (poems : list Poem) (e : GameEngine) :
  reachable_inv poems e → reachable_inv poems (nextRound e).2.
Proof.
  intros Hinv. unfold nextRound.
  destruct (_gameOver e) eqn:Hover; [done|].
  pose proof (inv_live _ _ Hinv Hover) as Hlt.
  destruct Hinv. simpl.
  repeat case_bool_decide; simpl; split; simpl; try done; try lia.
Qed.

Lemma exec_inv (poems : list Poem) (c : call) (e : GameEngine) :
  reachable_inv poems e → reachable_inv poems (exec c e).
Proof. destruct c; [apply selectCard_inv | apply nextRound_inv]. Qed.

Lemma run_inv (poems : list Poem) (cs : list call) (e : GameEngine) :
  reachable_inv poems e → reachable_inv poems (run cs e).
Proof.
  revert e. induction cs as [|c cs IH]; intros e Hinv; [done|].
  simpl. by apply IH, exec_inv.
Qed.

Lemma played_inv (poems : list Poem) (g : rng) (cs : list call)
    (e : GameEngine) :
  start poems g = Some e → reachable_inv poems (run cs e).
Proof. intros He. apply run_inv. by apply start_inv in He as [? _]. Qed.

Example sample_game_started : start sample_poems sample_rng = Some sample_game.
Proof. reflexivity. Qed.

Example sample_game_order :
  id <$> _readingOrder sample_game = [2; 3; 1]%Z
  ∧ id <$> _remainingCards sample_game = [1; 3; 2]%Z.
Proof. split; reflexivity. Qed.

(** The three-poem game of the engine's unit tests, played to its end: one
    wrong answer in the second round, three right ones. *)
Example full_game_of_three :
  let s := run [SelectCard 2; NextRound; SelectCard 1; SelectCard 3;
                NextRound; SelectCard 1; NextRound] sample_game in
  isGameOver s = true ∧ _score s = 3 ∧ _incorrectCount s = 1
  ∧ _remainingCards s = [] ∧ getCurrentReadingCard s = None.
Proof. by split_and!. Qed.

(** ** C1: the round number shown to the client *)

(** C1, as written, fails: a one-poem game played to its end reports round 2
    of 1, because [getGameState] shows the round index plus one and the index
    reaches [totalRounds] when the rounds are used up. *)
Lemma currentRound_exceeds_totalRounds :
  match start [sample_poem 1] sample_rng with
  | Some e =>
      let st := getGameState (run [SelectCard 1; NextRound] e) in
      ¬ (GameState.currentRound st ≤ GameState.totalRounds st)
  | None => False
  end.
Proof. vm_compute. lia. Qed.

(** C1, amended: in every state reached from [initGame] by [selectCard] and
    [nextRound] calls, the [currentRound] field of [getGameState] is at most
    [totalRounds + 1], and at most [totalRounds] while the game is not over. *)
Theorem currentRound_bound (poems : list Poem) (g : rng) (cs : list call)
    (e : GameEngine) :
  start poems g = Some e →
  let st := getGameState (run cs e) in
  GameState.currentRound st ≤ GameState.totalRounds st + 1
  ∧ (GameState.isGameOver st = false →
     GameState.currentRound st ≤ GameState.totalRounds st).
Proof.
  intros He. pose proof (played_inv _ _ cs _ He) as Hinv. simpl.
  split.
  - pose proof (inv_round _ _ Hinv). lia.
  - intros Hlive. pose proof (inv_live _ _ Hinv Hlive). lia.
Qed.

Lemma currentRound_bound_witness :
  start sample_poems sample_rng = Some sample_game
  ∧ let st := getGameState (run [SelectCard 2; NextRound] sample_game) in
    GameState.currentRound st ≤ GameState.totalRounds st + 1
    ∧ (GameState.isGameOver st = false →
       GameState.currentRound st ≤ GameState.totalRounds st).
Proof.
  split; [reflexivity|].
  apply (currentRound_bound sample_poems sample_rng). reflexivity.
Defined.

(** ** C3: [nextRound] *)

(** C3: in a state that is not over, [nextRound] adds one to the round index
    and touches no other field but the game-over flag; it returns [false] and
    sets the flag exactly when the new index has reached [totalRounds] or the
    pool is empty, and returns [true] (flag still clear) otherwise.  In a
    state that is over it returns [false] and leaves the state as it is. *)
Theorem nextRound_spec (e : GameEngine) :
  (_gameOver e = false →
   let r := (nextRound e).1 in
   let e' := (nextRound e).2 in
   let ended :=
     _totalRounds e ≤ _currentRound e + 1 ∨ _remainingCards e = [] in
   _currentRound e' = _currentRound e + 1
   ∧ (r = false ↔ ended) ∧ (_gameOver e' = true ↔ ended)
   ∧ (r = true ↔ ¬ ended)
   ∧ _allPoems e' = _allPoems e
   ∧ _remainingCards e' = _remainingCards e
   ∧ _readingOrder e' = _readingOrder e
   ∧ _totalRounds e' = _totalRounds e
   ∧ _score e' = _score e
   ∧ _incorrectCount e' = _incorrectCount e)
  ∧ (_gameOver e = true → nextRound e = (false, e)).
Proof.
  split; intros Hover; unfold nextRound; rewrite Hover; [|done].
  simpl.
  assert (length (_remainingCards e) = 0 ↔ _remainingCards e = []) as Hnil
    by (destruct (_remainingCards e); split; intros; simplify_eq/=; done).
  repeat case_bool_decide; simpl; split_and!; try done;
    intuition (try lia; try congruence).
Qed.

Lemma nextRound_spec_witness :
  (nextRound sample_game).1 = true
  ∧ _currentRound (nextRound sample_game).2 = 1
  ∧ nextRound (run [NextRound; NextRound; NextRound] sample_game)
    = (false, run [NextRound; NextRound; NextRound] sample_game).
Proof.
  destruct (nextRound_spec sample_game) as [Hlive _].
  destruct (Hlive eq_refl) as (Hround & _ & _ & Htrue & _).
  destruct (nextRound_spec (run [NextRound; NextRound; NextRound] sample_game))
    as [_ Hover].
  split_and!.
  - apply Htrue. vm_compute. intros [?|?]; [lia|done].
  - exact Hround.
  - apply Hover. reflexivity.
Defined.

(** ** C4: judged attempts *)

Lemma selectCard_counts (poems : list Poem) (cardId : Z) (e : GameEngine) :
  reachable_inv poems e →
  _score (selectCard cardId e).2 + _incorrectCount (selectCard cardId e).2
  = _score e + _incorrectCount e + (if _gameOver e then 0 else 1).
Proof.
  intros Hinv. destruct (_gameOver e) eqn:Hover.
  - unfold selectCard. rewrite Hover. simpl. lia.
  - destruct (live_prompt _ _ Hinv Hover) as (prompt & Hp & _).
    unfold selectCard. rewrite Hover, Hp.
    case_bool_decide; simpl; lia.
Qed.

Lemma nextRound_counts (e : GameEngine) :
  _score (nextRound e).2 = _score e
  ∧ _incorrectCount (nextRound e).2 = _incorrectCount e.
Proof.
  unfold nextRound. destruct (_gameOver e); [done|].
  simpl. by destruct (_ || _).
Qed.

Lemma run_counts (poems : list Poem) (cs : list call) (e : GameEngine) :
  reachable_inv poems e →
  _score (run cs e) + _incorrectCount (run cs e)
  = _score e + _incorrectCount e + judged cs e.
Proof.
  revert e. induction cs as [|c cs IH]; intros e Hinv; simpl; [lia|].
  rewrite IH by by apply exec_inv.
  destruct c as [cardId|]; simpl.
  - rewrite (selectCard_counts poems) by done. lia.
  - destruct (nextRound_counts e) as [-> ->]. lia.
Qed.

(** C4: after [initGame], whatever [selectCard] and [nextRound] calls follow,
    [score + incorrectCount] is the number of [selectCard] calls that were
    made while the game was not over. *)
Theorem score_plus_incorrect_counts_judged (poems : list Poem) (g : rng)
    (cs : list call) (e : GameEngine) :
  start poems g = Some e →
  let st := getGameState (run cs e) in
  GameState.score st + GameState.incorrectCount st = judged cs e.
Proof.
  intros He. simpl.
  destruct (start_inv _ _ _ He) as (Hinv & _ & _ & Hs & Hi & _).
  rewrite (run_counts poems) by done. lia.
Qed.

Lemma score_plus_incorrect_counts_judged_witness :
  let cs := [SelectCard 1; SelectCard 2; NextRound; SelectCard 3; NextRound;
             NextRound; SelectCard 1; SelectCard 1] in
  let st := getGameState (run cs sample_game) in
  judged cs sample_game = 3
  ∧ GameState.score st + GameState.incorrectCount st = judged cs sample_game.
Proof.
  split; [reflexivity|].
  apply (score_plus_incorrect_counts_judged sample_poems sample_rng).
  reflexivity.
Defined.

(** ** C5: the prompt *)

(** C5: in every state reached from [initGame] on a non-empty collection,
    [getCurrentReadingCard] returns nothing exactly when the game is over, and
    otherwise returns one of the poems of the original collection (so its id
    is an id of that collection). *)
Theorem getCurrentReadingCard_spec (poems : list Poem) (g : rng)
    (cs : list call) (e : GameEngine) :
  start poems g = Some e →
  let s := run cs e in
  (getCurrentReadingCard s = None ↔ isGameOver s = true)
  ∧ (∀ p, getCurrentReadingCard s = Some p →
          p ∈ poems ∧ id p ∈ id <$> poems).
Proof.
  intros He s. pose proof (played_inv _ _ cs _ He) as Hinv. fold s in Hinv.
  unfold isGameOver. destruct (_gameOver s) eqn:Hover.
  - assert (getCurrentReadingCard s = None) as Hnone
      by (unfold getCurrentReadingCard; by rewrite Hover).
    rewrite Hnone. split; [done|]. by intros p.
  - destruct (live_prompt _ _ Hinv Hover) as (prompt & Hp & _ & Hin).
    rewrite Hp. split; [split; done|].
    intros p [= <-]. split; [done|]. by apply list_elem_of_fmap_2.
Qed.

Lemma getCurrentReadingCard_spec_witness :
  getCurrentReadingCard (run [SelectCard 2; NextRound] sample_game)
  = Some (sample_poem 3)
  ∧ sample_poem 3 ∈ sample_poems
  ∧ (getCurrentReadingCard (run [NextRound; NextRound; NextRound] sample_game)
     = None).
Proof.
  pose proof (getCurrentReadingCard_spec sample_poems sample_rng
                [SelectCard 2; NextRound] sample_game eq_refl) as [_ Hsome].
  pose proof (getCurrentReadingCard_spec sample_poems sample_rng
                [NextRound; NextRound; NextRound] sample_game eq_refl)
    as [Hnone _].
  split_and!.
  - reflexivity.
  - apply (Hsome (sample_poem 3)). reflexivity.
  - apply Hnone. reflexivity.
Defined.

(** ** C6: nothing moves once the game is over *)

Lemma selectCard_over (cardId : Z) (e : GameEngine) :
  _gameOver e = true →
  selectCard cardId e = ({| correct := false; correctCard := None |}, e).
Proof. intros Hover. unfold selectCard. by rewrite Hover. Qed.

Lemma nextRound_over (e : GameEngine) :
  _gameOver e = true → nextRound e = (false, e).
Proof. intros Hover. unfold nextRound. by rewrite Hover. Qed.

Lemma run_over (cs : list call) (e : GameEngine) :
  _gameOver e = true → run cs e = e.
Proof.
  intros Hover. induction cs as [|c cs IH]; [done|]. simpl.
  destruct c; simpl.
  - by rewrite selectCard_over.
  - by rewrite nextRound_over.
Qed.

(** C6: once the game is over, every [selectCard] and every [nextRound] call,
    and so every sequence of them, leaves the whole engine state (pool, round
    index, [totalRounds], score, incorrect count, flag) as it was;
    [initGame] does change it, clearing the flag. *)
Theorem gameOver_frozen (e : GameEngine) :
  isGameOver e = true →
  (∀ cardId, selectCard cardId e
             = ({| correct := false; correctCard := None |}, e))
  ∧ nextRound e = (false, e)
  ∧ (∀ cs, run cs e = e ∧ getGameState (run cs e) = getGameState e)
  ∧ (∀ g, isGameOver (initGame e g).1.2 = false ∧ (initGame e g).1.2 ≠ e).
Proof.
  unfold isGameOver. intros Hover. split_and!.
  - intros cardId. by apply selectCard_over.
  - by apply nextRound_over.
  - intros cs. by rewrite run_over.
  - intros g. destruct (initGame_fields e g) as (_&_&_&_&_&_&_&Hg).
    split; [done|]. intros Heq. rewrite Heq in Hg. congruence.
Qed.

Lemma gameOver_frozen_witness :
  let over := run [NextRound; NextRound; NextRound] sample_game in
  isGameOver over = true
  ∧ run [SelectCard 1; NextRound; SelectCard 2] over = over
  ∧ isGameOver (initGame over sample_rng).1.2 = false.
Proof.
  intros over.
  destruct (gameOver_frozen over eq_refl) as (_ & _ & Hrun & Hinit).
  split_and!.
  - reflexivity.
  - apply Hrun.
  - apply Hinit.
Defined.

(** ** C2: the judgment *)

Section UniqueIds.
Context {A B : Type} (key : A → B) `{!EqDecision B}.
Implicit Types (l k : list A).

Lemma filter_all (P : A → Prop) `{!∀ x, Decision (P x)} l :
  (∀ x, x ∈ l → P x) → filter P l = l.
Proof.
  induction l as [|x l IH]; intros Hall; [done|].
  rewrite filter_cons_True by (apply Hall; left).
  f_equal. apply IH. intros y Hy. apply Hall. by right.
Qed.

Lemma same_key_same_elem l x y :
  NoDup (key <$> l) → x ∈ l → y ∈ l → key x = key y → x = y.
Proof.
  intros Hnd [i Hi]%list_elem_of_lookup_1 [j Hj]%list_elem_of_lookup_1 Hkey.
  assert (i = j) as ->; [|congruence].
  apply (NoDup_lookup (key <$> l) i j (key x) Hnd);
    rewrite list_lookup_fmap; [by rewrite Hi|by rewrite Hj, Hkey].
Qed.

Lemma NoDup_keys_submseteq l k :
  l ⊆+ k → NoDup (key <$> k) → NoDup (key <$> l).
Proof.
  intros Hsub Hnd.
  apply (fmap_submseteq key) in Hsub.
  apply submseteq_Permutation in Hsub as [rest Hrest].
  rewrite Hrest in Hnd. by apply NoDup_app in Hnd as [? _].
Qed.

(** Filtering out the key of a member of a list with unique keys removes that
    member and nothing else. *)
Lemma filter_out_unique l x :
  NoDup (key <$> l) → x ∈ l →
  ∃ l1 l2, l = l1 ++ x :: l2 ∧ filter (λ y, key y ≠ key x) l = l1 ++ l2.
Proof.
  intros Hnd Hx.
  destruct (list_elem_of_split _ _ Hx) as (l1 & l2 & ->).
  exists l1, l2. split; [done|].
  assert (∀ y, y ∈ l1 ++ l2 → key y ≠ key x) as Hother.
  { intros y Hy Hkey.
    rewrite fmap_app, fmap_cons in Hnd.
    apply NoDup_app in Hnd as (_ & Hdisj & Htail).
    apply NoDup_cons in Htail as [Hnotin _].
    apply elem_of_app in Hy as [Hy|Hy].
    - apply (Hdisj (key y)); [by apply list_elem_of_fmap_2|].
      rewrite Hkey. left.
    - apply Hnotin. rewrite <- Hkey. by apply list_elem_of_fmap_2. }
  rewrite filter_app, filter_cons_False by (intros Hne; by apply Hne).
  rewrite <- filter_app. by apply filter_all.
Qed.

End UniqueIds.

(** C2: in a state reached from [initGame] on poems with pairwise distinct
    ids, while the game is not over, there is a current prompt, and
    - [selectCard] with the prompt's id answers [correct: true] together with
      the prompt, adds exactly one to the score, and removes from the pool
      the prompt's card and no other: the pool keeps every other card in its
      place;
    - [selectCard] with any other id answers [correct: false], leaves the
      pool as it is and adds exactly one to the incorrect count. *)
Theorem selectCard_spec (poems : list Poem) (g : rng) (cs : list call)
    (e : GameEngine) (cardId : Z) :
  NoDup (id <$> poems) →
  start poems g = Some e →
  let s := run cs e in
  isGameOver s = false →
  ∃ prompt,
    getCurrentReadingCard s = Some prompt
    ∧ let r := (selectCard cardId s).1 in
      let s' := (selectCard cardId s).2 in
      (cardId = id prompt →
         r = {| correct := true; correctCard := Some prompt |}
         ∧ _score s' = _score s + 1
         ∧ _incorrectCount s' = _incorrectCount s
         ∧ (∀ card, card ∈ _remainingCards s' ↔
                    card ∈ _remainingCards s ∧ card ≠ prompt)
         ∧ (prompt ∈ _remainingCards s →
            ∃ l1 l2, _remainingCards s = l1 ++ prompt :: l2
                     ∧ _remainingCards s' = l1 ++ l2)
         ∧ (prompt ∉ _remainingCards s →
            _remainingCards s' = _remainingCards s))
      ∧ (cardId ≠ id prompt →
         correct r = false
         ∧ _remainingCards s' = _remainingCards s
         ∧ _incorrectCount s' = _incorrectCount s + 1
         ∧ _score s' = _score s).
Proof.
  intros Hnd He s Hlive. unfold isGameOver in Hlive.
  pose proof (played_inv _ _ cs _ He) as Hinv. fold s in Hinv.
  destruct (live_prompt _ _ Hinv Hlive) as (prompt & Hp & _ & Hin).
  exists prompt. split; [done|].
  pose proof (NoDup_keys_submseteq id _ _ (inv_pool _ _ Hinv) Hnd) as Hpool.
  assert (∀ card, card ∈ _remainingCards s → card ∈ poems) as Hsub.
  { intros card Hc. eapply elem_of_submseteq; [exact Hc|by apply inv_pool]. }
  unfold selectCard. rewrite Hlive, Hp. simpl.
  split; intros Hid.
  - rewrite bool_decide_eq_true_2 by done. simpl. subst cardId.
    split_and!; try done.
    + intros card. rewrite list_elem_of_filter. split.
      * intros [Hne Hc]. split; [done|]. by intros ->.
      * intros [Hc Hne]. split; [|done]. intros Heq. apply Hne.
        by apply (same_key_same_elem id poems); auto.
    + intros Hmem. by apply filter_out_unique.
    + intros Hnotin. apply filter_all. intros card Hc Heq. apply Hnotin.
      by rewrite <- (same_key_same_elem id poems card prompt) by auto.
  - rewrite bool_decide_eq_false_2 by done. done.
Qed.

Lemma selectCard_spec_witness :
  (selectCard 2 sample_game).1
  = {| correct := true; correctCard := Some (sample_poem 2) |}
  ∧ _remainingCards (selectCard 2 sample_game).2
    = [sample_poem 1; sample_poem 3]
  ∧ correct (selectCard 3 sample_game).1 = false
  ∧ _incorrectCount (selectCard 3 sample_game).2 = 1.
Proof.
  assert (NoDup (id <$> sample_poems)) as Hnd
    by (by apply (bool_decide_unpack _)).
  destruct (selectCard_spec sample_poems sample_rng [] sample_game 2
              Hnd eq_refl eq_refl) as (p2 & Hp2 & Hyes & _).
  destruct (selectCard_spec sample_poems sample_rng [] sample_game 3
              Hnd eq_refl eq_refl) as (p3 & Hp3 & _ & Hno).
  injection Hp2 as <-. injection Hp3 as <-.
  destruct (Hyes eq_refl) as (Hr & _).
  destruct Hno as (Hc & _ & Hi & _); [discriminate|].
  split_and!.
  - exact Hr.
  - reflexivity.
  - exact Hc.
  - exact Hi.
Defined.

(** ** C8: the shuffle permutes *)

(** C8: whatever the generator yields, [fisherYatesShuffle] returns a
    permutation of its input, of any element type; hence after [initGame]
    the reading order and the pool are both permutations of the poems. *)
Theorem shuffle_permutes :
  (∀ (A : Type) (array : list A) (g : rng),
     (fisherYatesShuffle array g).1 ≡ₚ array)
  ∧ (∀ (poems : list Poem) (g : rng) (e : GameEngine),
       start poems g = Some e →
       _readingOrder e ≡ₚ poems ∧ _remainingCards e ≡ₚ poems
       ∧ GameState.remainingCards (getGameState e) ≡ₚ poems).
Proof.
  split.
  - intros A array g. apply fisherYatesShuffle_Permutation.
  - intros poems g e He.
    destruct (start_inv _ _ _ He) as (Hinv & Hpool & _).
    split_and!; [by apply inv_order|done|done].
Qed.

Lemma shuffle_permutes_witness :
  (fisherYatesShuffle [1; 2; 3; 4; 5] sample_rng).1 ≡ₚ [1; 2; 3; 4; 5]
  ∧ (fisherYatesShuffle [1; 2; 3; 4; 5] sample_rng).1 = [5; 3; 4; 2; 1]
  ∧ _readingOrder sample_game ≡ₚ sample_poems
  ∧ _remainingCards sample_game ≡ₚ sample_poems.
Proof.
  destruct shuffle_permutes as [Hshuffle Hinit].
  destruct (Hinit sample_poems sample_rng sample_game eq_refl)
    as (Horder & Hpool & _).
  split_and!.
  - apply Hshuffle.
  - reflexivity.
  - exact Horder.
  - exact Hpool.
Defined.

(** ** C10: judging the same prompt twice *)

Lemma selectCard_correct_inv (e : GameEngine) (cardId : Z) :
  correct (selectCard cardId e).1 = true →
  ∃ prompt, _gameOver e = false ∧ getCurrentReadingCard e = Some prompt
            ∧ cardId = id prompt.
Proof.
  unfold selectCard.
  destruct (_gameOver e) eqn:Hover; [done|].
  destruct (getCurrentReadingCard e) as [prompt|]; [|done].
  simpl. case_bool_decide; [|done]. intros _. by exists prompt.
Qed.

Lemma selectCard_hit (e : GameEngine) (prompt : Poem) :
  _gameOver e = false → getCurrentReadingCard e = Some prompt →
  selectCard (id prompt) e
  = ({| correct := true; correctCard := Some prompt |},
     {| _allPoems := _allPoems e;
        _remainingCards :=
          filter (λ card, id card ≠ id prompt) (_remainingCards e);
        _readingOrder := _readingOrder e;
        _currentRound := _currentRound e;
        _totalRounds := _totalRounds e;
        _score := _score e + 1;
        _incorrectCount := _incorrectCount e;
        _gameOver := _gameOver e |}).
Proof.
  intros Hover Hp. unfold selectCard. rewrite Hover, Hp.
  by rewrite bool_decide_eq_true_2.
Qed.

Lemma selectCard_frame (cardId : Z) (e : GameEngine) :
  let e' := (selectCard cardId e).2 in
  _gameOver e' = _gameOver e
  ∧ getCurrentReadingCard e' = getCurrentReadingCard e
  ∧ (∀ card, card ∈ _remainingCards e' → card ∈ _remainingCards e).
Proof.
  unfold selectCard.
  destruct (_gameOver e) eqn:Hover; [done|].
  destruct (getCurrentReadingCard e) as [prompt|] eqn:Hp; [|done].
  assert (∀ e', _gameOver e' = false → _readingOrder e' = _readingOrder e →
                _currentRound e' = _currentRound e →
                _totalRounds e' = _totalRounds e →
                getCurrentReadingCard e' = Some prompt) as Hsame.
  { intros e' Ho Hr Hc Ht. rewrite <- Hp. unfold getCurrentReadingCard.
    by rewrite Ho, Hr, Hc, Ht, Hover. }
  destruct (bool_decide (cardId = id prompt)); simpl;
    (split_and!; [done|by apply Hsame|]); [|done].
  by intros card [_ ?]%list_elem_of_filter.
Qed.

(** A run of [selectCard] calls only: flag and prompt stay, the pool can
    only shrink. *)
Lemma selects_frame (ids : list Z) (e : GameEngine) :
  let e' := run (SelectCard <$> ids) e in
  _gameOver e' = _gameOver e
  ∧ getCurrentReadingCard e' = getCurrentReadingCard e
  ∧ (∀ card, card ∈ _remainingCards e' → card ∈ _remainingCards e).
Proof.
  revert e. induction ids as [|cardId ids IH]; intros e; [done|].
  destruct (IH (selectCard cardId e).2) as (Hover & Hp & Hsub).
  destruct (selectCard_frame cardId e) as (Hover' & Hp' & Hsub').
  split_and!.
  - exact (eq_trans Hover Hover').
  - exact (eq_trans Hp Hp').
  - intros card Hin. by apply Hsub', Hsub.
Qed.

(** C10: when [selectCard] has answered [correct: true], a later call with
    the same id, with no [nextRound] in between (other [selectCard] calls
    may come in between), finds the game still on, gives the same answer,
    adds one more to the score and leaves the pool as it found it: the card
    is already gone.  So the score can exceed the number of cards taken from
    the pool: the sample game after two such calls has score 2 with one card
    taken. *)
Theorem selectCard_twice (e : GameEngine) (cardId : Z) (between : list Z) :
  (correct (selectCard cardId e).1 = true →
   let e1 := run (SelectCard <$> between) (selectCard cardId e).2 in
   let e2 := (selectCard cardId e1).2 in
   isGameOver e1 = false
   ∧ (selectCard cardId e1).1 = (selectCard cardId e).1
   ∧ correct (selectCard cardId e1).1 = true
   ∧ _score e2 = _score e1 + 1
   ∧ _remainingCards e2 = _remainingCards e1
   ∧ _incorrectCount e2 = _incorrectCount e1
   ∧ _currentRound e2 = _currentRound e1
   ∧ _totalRounds e2 = _totalRounds e1
   ∧ isGameOver e2 = false)
  ∧ (let s := run [SelectCard 2; SelectCard 2] sample_game in
     _score s = 2
     ∧ length (_allPoems s) - length (_remainingCards s) = 1).
Proof.
  split; [|split; reflexivity].
  intros Hc e1.
  destruct (selectCard_correct_inv _ _ Hc) as (prompt & Hover & Hp & ->).
  destruct (selectCard_frame (id prompt) e) as (Hover0 & Hp0 & _).
  destruct (selects_frame between (selectCard (id prompt) e).2)
    as (Hover1 & Hp1 & Hsub).
  fold e1 in Hover1, Hp1, Hsub.
  rewrite Hover0, Hover in Hover1. rewrite Hp0, Hp in Hp1.
  assert (∀ card, card ∈ _remainingCards e1 → id card ≠ id prompt) as Htaken.
  { intros card Hin%Hsub. rewrite (selectCard_hit _ _ Hover Hp) in Hin.
    simpl in Hin. by apply list_elem_of_filter in Hin as [? _]. }
  rewrite (selectCard_hit _ _ Hover1 Hp1), (selectCard_hit _ _ Hover Hp).
  unfold isGameOver. simpl. split_and!; try done.
  by apply filter_all.
Qed.

Lemma selectCard_twice_witness :
  let e1 := run [SelectCard 3] (selectCard 2 sample_game).2 in
  let e2 := (selectCard 2 e1).2 in
  correct (selectCard 2 e1).1 = true
  ∧ _score e2 = 2
  ∧ _remainingCards e2 = _remainingCards e1.
Proof.
  destruct (selectCard_twice sample_game 2 [3%Z]) as [Hgen _].
  destruct (Hgen eq_refl) as (_ & _ & Hr & Hs & Hpool & _).
  split_and!.
  - exact Hr.
  - etrans; [exact Hs|reflexivity].
  - exact Hpool.
Defined.

(** * Properties of the validator *)

Lemma string_app_nil_r (s : string) : s +:+ "" = s.
Proof.
  induction s as [|c s IH]; [done|].
  change (String c (s +:+ "") = String c s). by rewrite IH.
Qed.

Lemma string_app_assoc (s1 s2 s3 : string) :
  (s1 +:+ s2) +:+ s3 = s1 +:+ s2 +:+ s3.
Proof.
  induction s1 as [|c s1 IH]; [done|].
  change (String c ((s1 +:+ s2) +:+ s3) = String c (s1 +:+ s2 +:+ s3)).
  by rewrite IH.
Qed.

(** A member of a joined list shows up in the joined text. *)
Lemma concat_names {A : Type} (f : A → string) (xs : list A) (x : A) :
  x ∈ xs → ∃ pre post, String.concat ", " (f <$> xs) = pre +:+ f x +:+ post.
Proof.
  induction xs as [|z ids IH]; intros Hd; [by apply elem_of_nil in Hd|].
  destruct ids as [|z' ids].
  - apply list_elem_of_singleton in Hd as ->.
    exists "", "". symmetry. apply (string_app_nil_r (f z)).
  - apply elem_of_cons in Hd as [->|Hd].
    + by exists "", (", " +:+ String.concat ", " (f <$> z' :: ids)).
    + destruct (IH Hd) as (pre & post & Heq).
      exists (f z +:+ ", " +:+ pre), post.
      change (String.concat ", " (f <$> z :: z' :: ids))
        with (f z +:+ ", " +:+ String.concat ", " (f <$> z' :: ids)).
      by rewrite Heq, !string_app_assoc.
Qed.

Lemma join_ids_names (ids : list Z) (d : Z) :
  d ∈ ids → ∃ pre post, join_ids ids = pre +:+ Number_toString d +:+ post.
Proof. apply concat_names. Qed.

(** Below 2^53 an integer prints as its decimal numeral. *)
Lemma Number_toString_safe (z : Z) :
  (Z.abs z < 2 ^ 53)%Z → Number_toString z = pretty z.
Proof. intros Hz. unfold Number_toString. by rewrite bool_decide_eq_true_2. Qed.

Lemma integer_id_get (poem : jsval) (z : Z) :
  integer_id poem = Some z ↔ get poem "id" = JNum (Integer z).
Proof.
  unfold integer_id.
  destruct (get poem "id") as [| | |[z'|]| | |]; split; intros; by simplify_eq.
Qed.

Lemma validatePoem_valid_iff (poem : jsval) :
  valid (validatePoem poem) = true ↔ errors (validatePoem poem) = [].
Proof.
  destruct poem; simpl; try done.
  rewrite bool_decide_eq_true. apply length_zero_iff_nil.
Qed.

Lemma validatePoem_valid_id (poem : jsval) :
  valid (validatePoem poem) = true →
  ∃ z, integer_id poem = Some z ∧ (1 ≤ z ≤ 100)%Z.
Proof.
  intros Hvalid. apply validatePoem_valid_iff in Hvalid.
  destruct poem as [| | | | | |props]; try done.
  simpl in Hvalid. apply app_nil in Hvalid as [Hid _].
  unfold check_id, integer_id in *.
  destruct (get (JObj props) "id") as [| | |[z|]| | |]; try done.
  exists z. split; [done|].
  destruct (bool_decide (z < 1)%Z) eqn:H1;
    destruct (bool_decide (100 < z)%Z) eqn:H2; try done.
  apply bool_decide_eq_false in H1, H2. lia.
Qed.

(** One call of the callback, field by field. *)
Lemma visit_spec (index : nat) (poem : jsval) (st : scan) :
  scan_errors (visit index poem st)
  = scan_errors st
    ++ (if valid (validatePoem poem) then []
        else index_prefix index <$> errors (validatePoem poem))
  ∧ idSet (visit index poem st)
    = match integer_id poem with
      | Some z => {[z]} ∪ idSet st
      | None => idSet st
      end
  ∧ duplicateIds (visit index poem st)
    = match integer_id poem with
      | Some z =>
          if bool_decide (z ∈ idSet st) then duplicateIds st ++ [z]
          else duplicateIds st
      | None => duplicateIds st
      end.
Proof.
  unfold visit, integer_id.
  assert (∀ l : list string,
            (if valid (validatePoem poem) then l
             else l ++ (index_prefix index <$> errors (validatePoem poem)))
            = l ++ (if valid (validatePoem poem) then []
                    else index_prefix index <$> errors (validatePoem poem)))
    as Herr by (intros l; destruct (valid _); by rewrite ?app_nil_r).
  destruct (get poem "id") as [| | |[z|]| | |]; simpl; try done.
  case_bool_decide as Hin; simpl; split_and!; try done.
  set_solver.
Qed.

(** The loop, slot by slot. *)
Lemma forEach_cons (slot : option jsval) (rest : list (option jsval))
    (index : nat) (st : scan) :
  forEach (slot :: rest) index st
  = forEach rest (S index) (visit_slot index slot st).
Proof. by destruct slot. Qed.

Lemma visit_slot_spec (index : nat) (slot : option jsval) (st : scan) :
  scan_errors (visit_slot index slot st)
  = scan_errors st ++ slot_errors index slot
  ∧ idSet (visit_slot index slot st)
    = match slot_id slot with
      | Some z => {[z]} ∪ idSet st
      | None => idSet st
      end
  ∧ duplicateIds (visit_slot index slot st)
    = match slot_id slot with
      | Some z =>
          if bool_decide (z ∈ idSet st) then duplicateIds st ++ [z]
          else duplicateIds st
      | None => duplicateIds st
      end.
Proof.
  destruct slot as [poem|]; [exact (visit_spec index poem st)|].
  simpl. by rewrite app_nil_r.
Qed.

Lemma slot_errors_nil (index : nat) (slot : option jsval) :
  slot_errors index slot = [] ↔ slot_valid slot = true.
Proof.
  destruct slot as [poem|]; simpl; [|done].
  destruct (valid (validatePoem poem)) eqn:Hvalid; [done|].
  split; [|done]. intros Hnil%fmap_nil_inv.
  apply validatePoem_valid_iff in Hnil. congruence.
Qed.

Lemma omap_slot_id_cons (slot : option jsval) (rest : list (option jsval)) :
  omap slot_id (slot :: rest)
  = match slot_id slot with
    | Some z => z :: omap slot_id rest
    | None => omap slot_id rest
    end.
Proof. done. Qed.

Lemma forEach_errors_mono (poems : list (option jsval)) (index : nat)
    (st : scan) (err : string) :
  err ∈ scan_errors st → err ∈ scan_errors (forEach poems index st).
Proof.
  revert index st. induction poems as [|slot rest IH]; intros index st Hin;
    [done|].
  rewrite forEach_cons. apply IH.
  destruct (visit_slot_spec index slot st) as (-> & _).
  apply elem_of_app. by left.
Qed.

Lemma forEach_duplicateIds_mono (poems : list (option jsval)) (index : nat)
    (st : scan) (d : Z) :
  d ∈ duplicateIds st → d ∈ duplicateIds (forEach poems index st).
Proof.
  revert index st. induction poems as [|slot rest IH]; intros index st Hin;
    [done|].
  rewrite forEach_cons. apply IH.
  destruct (visit_slot_spec index slot st) as (_ & _ & ->).
  destruct (slot_id slot) as [z|]; [|done].
  case_bool_decide; [|done]. apply elem_of_app. by left.
Qed.

(** An id already seen and met again is recorded as a duplicate. *)
Lemma forEach_seen_again (poems : list (option jsval)) (index : nat)
    (st : scan) (d : Z) (q : option jsval) :
  d ∈ idSet st → q ∈ poems → slot_id q = Some d →
  d ∈ duplicateIds (forEach poems index st).
Proof.
  revert index st.
  induction poems as [|slot rest IH]; intros index st Hseen Hq Hid;
    [by apply elem_of_nil in Hq|].
  rewrite forEach_cons.
  destruct (visit_slot_spec index slot st) as (_ & Hset & Hdup).
  apply elem_of_cons in Hq as [<-|Hq].
  - apply forEach_duplicateIds_mono. rewrite Hdup, Hid.
    rewrite bool_decide_eq_true_2 by done. apply elem_of_app. right. left.
  - apply IH; [|done..]. rewrite Hset.
    destruct (slot_id slot); set_solver.
Qed.

(** Two slots at different places with the same integer id: the id is
    recorded as a duplicate. *)
Lemma forEach_pair_duplicate (poems : list (option jsval)) (index : nat)
    (st : scan) (i j : nat) (p q : option jsval) (d : Z) :
  i < j → poems !! i = Some p → poems !! j = Some q →
  slot_id p = Some d → slot_id q = Some d →
  d ∈ duplicateIds (forEach poems index st).
Proof.
  revert index st i j.
  induction poems as [|slot rest IH]; intros index st i j Hlt Hp Hq Hidp Hidq;
    [done|].
  rewrite forEach_cons. destruct j as [|j]; [lia|]. simpl in Hq.
  destruct i as [|i]; simpl in Hp.
  - injection Hp as ->.
    apply (forEach_seen_again rest _ _ d q); [|by eapply list_elem_of_lookup_2|done].
    destruct (visit_slot_spec index p st) as (_ & -> & _). rewrite Hidp.
    set_solver.
  - apply (IH _ _ i j); [lia|done..].
Qed.

(** Every error of an invalid element is reported behind the element's
    index. *)
Lemma forEach_prefixed (poems : list (option jsval)) (index : nat)
    (st : scan) (k : nat) (p : jsval) (err : string) :
  poems !! k = Some (Some p) → valid (validatePoem p) = false →
  err ∈ errors (validatePoem p) →
  index_prefix (index + k) err ∈ scan_errors (forEach poems index st).
Proof.
  revert index st k.
  induction poems as [|slot rest IH]; intros index st k Hp Hinvalid Herr;
    [done|].
  rewrite forEach_cons. destruct k as [|k]; simpl in Hp.
  - injection Hp as ->. apply forEach_errors_mono.
    destruct (visit_slot_spec index (Some p) st) as (-> & _).
    simpl. rewrite Hinvalid.
    apply elem_of_app. right. rewrite Nat.add_0_r.
    by apply list_elem_of_fmap_2.
  - replace (index + S k) with (S index + k) by lia. by apply IH.
Qed.

(** No error is reported exactly when none was there before and every
    element that is there is valid. *)
Lemma forEach_errors_nil (poems : list (option jsval)) (index : nat)
    (st : scan) :
  scan_errors (forEach poems index st) = [] ↔
  scan_errors st = [] ∧ Forall (λ slot, slot_valid slot = true) poems.
Proof.
  revert index st. induction poems as [|slot rest IH]; intros index st.
  - simpl. split; [by intros ->|by intros [-> _]].
  - rewrite forEach_cons, IH, Forall_cons.
    destruct (visit_slot_spec index slot st) as (-> & _).
    rewrite app_nil, slot_errors_nil. tauto.
Qed.

(** No duplicate is recorded exactly when none was there before, the integer
    ids of the elements are pairwise distinct, and none had been seen. *)
Lemma forEach_duplicateIds_nil (poems : list (option jsval)) (index : nat)
    (st : scan) :
  duplicateIds (forEach poems index st) = [] ↔
  duplicateIds st = []
  ∧ (∀ i j p q d, poems !! i = Some p → poems !! j = Some q →
       slot_id p = Some d → slot_id q = Some d → i = j)
  ∧ (∀ p d, p ∈ poems → slot_id p = Some d → d ∉ idSet st).
Proof.
  revert index st. induction poems as [|poem rest IH]; intros index st.
  - simpl. split; [intros ->; split_and!; [done|done|]|by intros [-> _]].
    intros p d Hp. by apply elem_of_nil in Hp.
  - rewrite forEach_cons, IH.
    destruct (visit_slot_spec index poem st) as (_ & -> & ->).
    destruct (slot_id poem) as [z|] eqn:Hz.
    + case_bool_decide as Hseen.
      * split.
        { intros [Hnil _]. by apply app_nil in Hnil as [_ [=]]. }
        intros (_ & _ & Hfresh). exfalso.
        apply (Hfresh poem z); [left|done|done].
      * split.
        { intros (Hnil & Hpair & Hfresh). split_and!; [done| |].
          - intros [|i] [|j] p q d Hp Hq Hidp Hidq; simpl in *.
            + done.
            + injection Hp as <-. exfalso.
              apply (Hfresh q d); [by eapply list_elem_of_lookup_2|done|].
              set_solver.
            + injection Hq as <-. exfalso.
              apply (Hfresh p d); [by eapply list_elem_of_lookup_2|done|].
              set_solver.
            + f_equal. by eapply Hpair.
          - intros p d [->|Hp]%elem_of_cons Hid; [congruence|].
            specialize (Hfresh p d Hp Hid). set_solver. }
        intros (Hnil & Hpair & Hfresh). split_and!; [done| |].
        { intros i j p q d Hp Hq Hidp Hidq.
          assert (S i = S j) by (by eapply Hpair). lia. }
        intros p d Hp Hid.
        assert (d ∉ idSet st) by (apply (Hfresh p d); [by right|done]).
        assert (d ≠ z); [|set_solver].
        intros ->. destruct (list_elem_of_lookup_1 _ _ Hp) as [k Hk].
        assert (0 = S k); [|lia].
        by apply (Hpair 0 (S k) poem p z).
    + split.
      * intros (Hnil & Hpair & Hfresh). split_and!; [done| |].
        -- intros [|i] [|j] p q d Hp Hq Hidp Hidq; simpl in *.
           ++ done.
           ++ injection Hp as <-. congruence.
           ++ injection Hq as <-. congruence.
           ++ f_equal. by eapply Hpair.
        -- intros p d [->|Hp]%elem_of_cons Hid; [congruence|].
           by apply (Hfresh p d).
      * intros (Hnil & Hpair & Hfresh). split_and!; [done| |].
        -- intros i j p q d Hp Hq Hidp Hidq.
           assert (S i = S j) by (by eapply Hpair). lia.
        -- intros p d Hp Hid. apply (Hfresh p d); [by right|done].
Qed.

(** The validator's unit tests, replayed. *)
Example validatePoem_accepts :
  validatePoem (sample_json 1) = {| valid := true; errors := [] |}
  ∧ valid (validatePoem (sample_json 100)) = true.
Proof. split; reflexivity. Qed.

Example validatePoem_rejects :
  errors (validatePoem (sample_json 0)) = ["id must be between 1 and 100"]
  ∧ errors (validatePoem (sample_json 101)) = ["id must be between 1 and 100"]
  ∧ errors (validatePoem
              (JObj [("id", JNum NonInteger); ("author", JStr [32; 32; 32]%N);
                     ("upperVerse", JNum (Integer 42));
                     ("lowerVerse", JStr [12288; 9]%N)]))
    = ["id must be an integer"; "author must be a non-empty string";
       "upperVerse must be a string"; "lowerVerse must be a non-empty string"]
  ∧ length (errors (validatePoem (JObj []))) = 4
  ∧ errors (validatePoem JNull) = ["Poem must be a non-null object"]
  ∧ errors (validatePoem (JArr []))
    = ["Poem must be a plain object, not an array"].
Proof. by split_and!. Qed.

Example validatePoemCollection_rejects :
  errors (validatePoemCollection (JStr []))
  = ["Poem collection must be an array"]
  ∧ errors (validatePoemCollection
              (JArr [Some (sample_json 1); Some (sample_json 1)]))
    = ["Poem collection must contain exactly 100 poems, but got 2";
       "Duplicate poem IDs found: 1"].
Proof. split; reflexivity. Qed.

(** The error list of a collection is empty exactly for a hundred slots
    whose elements are valid and whose integer ids are pairwise distinct. *)
Lemma collection_errors_nil (slots : list (option jsval)) :
  errors (validatePoemCollection (JArr slots)) = [] ↔
  length slots = 100
  ∧ Forall (λ slot, slot_valid slot = true) slots
  ∧ (∀ i j p q d, slots !! i = Some p → slots !! j = Some q →
       slot_id p = Some d → slot_id q = Some d → i = j).
Proof.
  unfold validatePoemCollection. cbn [errors].
  set (errors0 := if bool_decide (length slots ≠ 100) then _ else _).
  set (st := forEach slots 0 _).
  assert (errors0 = [] ↔ length slots = 100) as Hlen.
  { unfold errors0. case_bool_decide as Hne.
    - split; [intros [=]|intros ?; contradiction].
    - split; [intros _; lia|done]. }
  pose proof (forEach_errors_nil slots 0
                {| scan_errors := errors0; idSet := ∅; duplicateIds := [] |})
    as Herr.
  pose proof (forEach_duplicateIds_nil slots 0
                {| scan_errors := errors0; idSet := ∅; duplicateIds := [] |})
    as Hdup.
  fold st in Herr, Hdup. simpl in Herr, Hdup.
  case_bool_decide as Hsome.
  - split; [by intros [_ [=]]%app_nil|].
    intros (_ & _ & Hpair). exfalso.
    assert (duplicateIds st = []) as Hnil; [|rewrite Hnil in Hsome; simpl in *; lia].
    apply Hdup. split_and!; [done|done|]. intros p d _ _. set_solver.
  - assert (duplicateIds st = []) as Hnil
      by (destruct (duplicateIds st); [done|simpl in *; lia]).
    rewrite Herr, Hlen. apply Hdup in Hnil as (_ & Hpair & _).
    tauto.
Qed.

Lemma collection_valid_errors (input : jsval) :
  valid (validatePoemCollection input) = true ↔
  errors (validatePoemCollection input) = [].
Proof.
  destruct input; simpl; try done.
  rewrite bool_decide_eq_true. apply length_zero_iff_nil.
Qed.

(** For arrays without holes the slots can be replaced by the elements. *)
Lemma dense_slots_valid (elems : list jsval) :
  Forall (λ slot, slot_valid slot = true) (Some <$> elems)
  ↔ Forall (λ p, valid (validatePoem p) = true) elems.
Proof. by rewrite Forall_fmap. Qed.

(** ** C9: [validatePoemCollection] *)

(** C9: [validatePoemCollection] answers [valid: true] with no error for
    [new Array(100)], an array of length 100 that holds no element at all,
    and for an array of 99 valid poems behind one hole: [forEach] passes
    over the holes, so nothing is checked there, although reading any
    element of such a slot gives [undefined], which [validatePoem]
    rejects. *)
Theorem validatePoemCollection_accepts_holes :
  validatePoemCollection empty_slots = {| valid := true; errors := [] |}
  ∧ validatePoemCollection short_collection
    = {| valid := true; errors := [] |}
  ∧ valid (validatePoem JUndefined) = false.
Proof. split_and!; by vm_compute. Qed.

(** X24: what [validatePoemCollection] does accept.  It answers
    [valid: true] with no error exactly for an array of length 100 whose
    elements that are there are each valid for [validatePoem] and have
    pairwise distinct ids ([valid] is true only with an empty error list);
    for an array without holes these are the hundred elements.  When two
    elements carry the same integer id the answer is [valid: false] and the
    errors hold a message that begins [Duplicate poem IDs found: ] and
    contains that id as [Number::toString] prints it.  Each error of an
    invalid element is reported behind [Poem at index i: ], [i] being the
    element's index. *)
Theorem validatePoemCollection_spec (input : jsval) :
  (validatePoemCollection input = {| valid := true; errors := [] |} ↔
   ∃ slots, input = JArr slots ∧ length slots = 100
     ∧ (∀ i p, slots !! i = Some (Some p) → valid (validatePoem p) = true)
     ∧ (∀ i j p q, slots !! i = Some (Some p) → slots !! j = Some (Some q) →
          get p "id" = get q "id" → i = j))
  ∧ (∀ elems,
       validatePoemCollection (JArr (Some <$> elems))
       = {| valid := true; errors := [] |} ↔
       length elems = 100
       ∧ Forall (λ p, valid (validatePoem p) = true) elems
       ∧ (∀ i j p q, elems !! i = Some p → elems !! j = Some q →
            get p "id" = get q "id" → i = j))
  ∧ (valid (validatePoemCollection input) = true ↔
     errors (validatePoemCollection input) = [])
  ∧ (∀ slots i j p q d,
       input = JArr slots → i ≠ j →
       slots !! i = Some (Some p) → slots !! j = Some (Some q) →
       get p "id" = JNum (Integer d) → get q "id" = JNum (Integer d) →
       valid (validatePoemCollection input) = false
       ∧ ∃ pre post,
           ("Duplicate poem IDs found: " +:+ pre +:+ Number_toString d
            +:+ post)
           ∈ errors (validatePoemCollection input))
  ∧ (∀ slots i p err,
       input = JArr slots → slots !! i = Some (Some p) →
       valid (validatePoem p) = false → err ∈ errors (validatePoem p) →
       ("Poem at index " +:+ pretty i +:+ ": " +:+ err)
       ∈ errors (validatePoemCollection input)).
Proof.
  pose proof collection_valid_errors as Hvalid.
  assert (∀ slots,
            validatePoemCollection (JArr slots)
            = {| valid := true; errors := [] |} ↔
            length slots = 100
            ∧ (∀ i p, slots !! i = Some (Some p) →
                 valid (validatePoem p) = true)
            ∧ (∀ i j p q, slots !! i = Some (Some p) →
                 slots !! j = Some (Some q) →
                 get p "id" = get q "id" → i = j)) as Hslots.
  { intros slots. split.
    - intros Heq.
      assert (errors (validatePoemCollection (JArr slots)) = []) as Hnil
        by by rewrite Heq.
      apply collection_errors_nil in Hnil as (Hlen & Hall & Hpair).
      assert (∀ i p, slots !! i = Some (Some p) →
                valid (validatePoem p) = true) as Hok.
      { intros i p Hp. exact (Forall_lookup_1 _ _ _ _ Hall Hp). }
      split_and!; [done..|].
      intros i j p q Hp Hq Hid.
      destruct (validatePoem_valid_id p (Hok _ _ Hp)) as (z & Hz & _).
      apply (Hpair i j (Some p) (Some q) z); [done..|].
      apply integer_id_get. rewrite <- Hid. by apply integer_id_get.
    - intros (Hlen & Hall & Hpair).
      assert (errors (validatePoemCollection (JArr slots)) = []) as Hnil.
      { apply collection_errors_nil. split_and!; [done| |].
        - apply Forall_lookup. intros i [p|] Hp; [|done]. by eapply Hall.
        - intros i j [p|] [q|] d Hp Hq Hidp Hidq; try done.
          simpl in Hidp, Hidq.
          apply integer_id_get in Hidp, Hidq.
          apply (Hpair i j p q); [done..|congruence]. }
      pose proof (proj2 (Hvalid (JArr slots)) Hnil) as Htrue.
      destruct (validatePoemCollection (JArr slots)); simpl in *.
      by subst. }
  split_and!; [| |apply Hvalid|..].
  - split.
    + intros Heq. destruct input as [| | | | |slots|]; try done.
      exists slots. split; [done|]. by apply Hslots.
    + intros (slots & -> & Hrest). by apply Hslots.
  - intros elems. rewrite Hslots, length_fmap.
    split; intros (Hlen & Hall & Hpair); (split_and!; [done| |]).
    + apply Forall_lookup. intros i p Hp. apply (Hall i).
      by rewrite list_lookup_fmap, Hp.
    + intros i j p q Hp Hq. apply Hpair; by rewrite list_lookup_fmap, ?Hp, ?Hq.
    + intros i p Hp. rewrite list_lookup_fmap in Hp.
      destruct (elems !! i) as [p'|] eqn:Hp'; [|done].
      injection Hp as ->. exact (Forall_lookup_1 _ _ _ _ Hall Hp').
    + intros i j p q Hp Hq. rewrite list_lookup_fmap in Hp, Hq.
      destruct (elems !! i) as [p'|] eqn:Hp'; [|done].
      destruct (elems !! j) as [q'|] eqn:Hq'; [|done].
      injection Hp as ->. injection Hq as ->. by apply Hpair.
  - intros slots i j p q d -> Hne Hp Hq Hidp%integer_id_get Hidq%integer_id_get.
    unfold validatePoemCollection. cbn [errors valid].
    set (errors0 := if bool_decide (length slots ≠ 100) then _ else _).
    set (st := forEach slots 0 _).
    assert (d ∈ duplicateIds st) as Hd.
    { destruct (decide (i < j)).
      - by apply (forEach_pair_duplicate slots _ _ i j (Some p) (Some q)).
      - apply (forEach_pair_duplicate slots _ _ j i (Some q) (Some p));
          [lia|done..]. }
    destruct (join_ids_names _ _ Hd) as (pre & post & Hjoin).
    assert (0 < length (duplicateIds st)) as Hpos.
    { apply list_elem_of_lookup_1 in Hd as [k Hk].
      apply lookup_lt_Some in Hk. lia. }
    rewrite !(bool_decide_eq_true_2 (0 < length (duplicateIds st))) by done.
    split.
    + apply bool_decide_eq_false. rewrite length_app. simpl. lia.
    + exists pre, post. apply elem_of_app. right.
      rewrite Hjoin. left.
  - intros slots i p err -> Hp Hinvalid Herr.
    unfold validatePoemCollection. cbn [errors].
    set (errors0 := if bool_decide (length slots ≠ 100) then _ else _).
    set (st0 := {| scan_errors := errors0; idSet := ∅; duplicateIds := [] |}).
    pose proof (forEach_prefixed slots 0 st0 i p err Hp Hinvalid Herr) as Hin.
    case_bool_decide; [apply elem_of_app; left|]; exact Hin.
Qed.

Lemma validatePoemCollection_spec_witness :
  validatePoemCollection full_collection = {| valid := true; errors := [] |}
  ∧ validatePoemCollection duplicate_collection
    = {| valid := false; errors := ["Duplicate poem IDs found: 1"] |}
  ∧ (∃ pre post,
       ("Duplicate poem IDs found: " +:+ pre +:+ Number_toString 1%Z
        +:+ post)
       ∈ errors (validatePoemCollection duplicate_collection))
  ∧ "Poem at index 2: Poem must be a non-null object"
    ∈ errors (validatePoemCollection broken_collection).
Proof.
  split_and!.
  - vm_compute. reflexivity.
  - vm_compute. reflexivity.
  - destruct (validatePoemCollection_spec duplicate_collection)
      as (_ & _ & _ & Hdup & _).
    eapply (Hdup _ 0 1 (sample_json 1) (sample_json 1) 1%Z);
      [reflexivity|lia|reflexivity..].
  - destruct (validatePoemCollection_spec broken_collection)
      as (_ & _ & _ & _ & Hidx).
    eapply (Hidx _ 2 JNull "Poem must be a non-null object");
      [reflexivity|reflexivity|reflexivity|left].
Defined.

(** * The score manager's figures *)

Lemma Number_sub_safe (a b : Z) :
  (Z.abs (a - b) ≤ 2 ^ 53)%Z → Number_sub a b = (a - b)%Z.
Proof. intros Hd. unfold Number_sub. by rewrite bool_decide_eq_true_2. Qed.

(** [remaining] is never negative, and it is [totalCards - correct], cut off
    at zero, where that difference is a Number. *)
Lemma ScoreManager_remaining (s : ScoreManager.t) :
  (0 ≤ ScoreManager.remaining s)%Z
  ∧ ((Z.abs (ScoreManager._totalCards s - ScoreManager._correct s) ≤ 2 ^ 53)%Z
     → ScoreManager.remaining s
       = Z.max 0 (ScoreManager._totalCards s - ScoreManager._correct s)).
Proof.
  unfold ScoreManager.remaining. split; [lia|].
  intros Hd. by rewrite Number_sub_safe.
Qed.

(** With no attempt counted the accuracy is 0. *)
Lemma getAccuracy_no_attempt (s : ScoreManager.t) :
  (ScoreManager._correct s + ScoreManager._incorrect s = 0)%Z →
  ScoreManager.getAccuracy s = S754_zero false.
Proof.
  intros Hnone. unfold ScoreManager.getAccuracy.
  by rewrite bool_decide_eq_true_2.
Qed.

(** [ScoreManager(0)] queried at once: nothing counted, nothing remaining. *)
Example ScoreManager_zero :
  ScoreManager.remaining <$> ScoreManager.new (JNum (Integer 0)) = Some 0%Z
  ∧ ScoreManager.getAccuracy <$> ScoreManager.new (JNum (Integer 0))
    = Some (S754_zero false).
Proof. split; reflexivity. Qed.

(** The unit tests of [getAccuracy], replayed: 7 of 10 is 70, 1 of 2 is 50,
    and 1 of 3 is 33.33. *)
Example getAccuracy_tests :
  ScoreManager.getAccuracy <$> tally 10 7 3 = Some (of_Z 70)
  ∧ ScoreManager.getAccuracy <$> tally 10 1 1 = Some (of_Z 50)
  ∧ ScoreManager.getAccuracy <$> tally 10 1 2 = Some (hundredths 3333)
  ∧ ScoreManager.getAccuracy <$> tally 10 3 0 = Some (of_Z 100).
Proof. split_and!; by vm_compute. Qed.

(** Above 2^53 the subtraction rounds: of 2^53 + 2 cards, one taken, 2^53
    are shown as remaining. *)
Example ScoreManager_large_total :
  ScoreManager.remaining
  <$> (ScoreManager.addCorrect
       <$> ScoreManager.new (JNum (Integer (2 ^ 53 + 2))))
  = Some (2 ^ 53)%Z.
Proof. by vm_compute. Qed.

(** ** C7: [getScore] *)


Lemma rounds_half_up_upto_spec (n correct attempts : nat) :
  rounds_half_up_upto n = true →
  1 ≤ attempts ≤ n → correct ≤ attempts →
  rounds_half_up correct attempts = true.
Proof.
  unfold rounds_half_up_upto. rewrite forallb_forall.
  intros Hall Ht Hc.
  specialize (Hall attempts). rewrite forallb_forall in Hall.
  apply Hall; apply in_seq; lia.
Qed.

Lemma percent_half_up_range (correct incorrect : Z) :
  (0 ≤ correct)%Z → (0 ≤ incorrect)%Z → (0 < correct + incorrect)%Z →
  (0 ≤ percent_half_up correct incorrect ≤ 10000)%Z.
Proof.
  intros Hc Hi Ht. unfold percent_half_up. split.
  - apply Z.div_pos; lia.
  - apply Z.lt_succ_r, Z.div_lt_upper_bound; lia.
Qed.

(** X25: up to a hundred attempts [getAccuracy] is exact: with no attempt
    it is 0, and otherwise it is the Number written with two decimals that
    is the percentage [correct / (correct + incorrect) * 100] rounded half
    up to two decimal places; that figure lies between 0 and 100. *)
Theorem getAccuracy_up_to_100 (s : ScoreManager.t) :
  let c := ScoreManager._correct s in
  let i := ScoreManager._incorrect s in
  (0 ≤ c)%Z → (0 ≤ i)%Z → (c + i ≤ 100)%Z →
  ((c + i = 0)%Z → ScoreManager.getAccuracy s = S754_zero false)
  ∧ ((0 < c + i)%Z →
     ScoreManager.getAccuracy s = hundredths (percent_half_up c i)
     ∧ (0 ≤ percent_half_up c i ≤ 100 * 100)%Z).
Proof.
  intros c i Hc Hi Hle. split; [apply getAccuracy_no_attempt|].
  intros Hpos. split; [|by apply percent_half_up_range].
  assert (rounds_half_up (Z.to_nat c) (Z.to_nat (c + i)) = true) as Hround.
  { apply (rounds_half_up_upto_spec 100); [by vm_compute|lia|lia]. }
  unfold rounds_half_up in Hround. apply bool_decide_eq_true in Hround.
  rewrite !Z2Nat.id in Hround by lia.
  replace (c + i - c)%Z with i in Hround by lia.
  unfold ScoreManager.getAccuracy. fold c i.
  rewrite bool_decide_eq_false_2 by lia.
  by rewrite Hround.
Qed.

Lemma getAccuracy_up_to_100_witness :
  ScoreManager.getAccuracy
    {| ScoreManager._totalCards := 100; ScoreManager._correct := 1;
       ScoreManager._incorrect := 31 |}
  = hundredths 313.
Proof.
  destruct (getAccuracy_up_to_100
              {| ScoreManager._totalCards := 100; ScoreManager._correct := 1;
                 ScoreManager._incorrect := 31 |}) as [_ Hsome];
    [simpl; lia..|].
  destruct Hsome as [Heq _]; [simpl; lia|]. exact Heq.
Defined.

(** * Further properties of the engine *)

Lemma exec_setup (c : call) (e : GameEngine) :
  _allPoems (exec c e) = _allPoems e
  ∧ _readingOrder (exec c e) = _readingOrder e
  ∧ _totalRounds (exec c e) = _totalRounds e
  ∧ _remainingCards (exec c e) `sublist_of` _remainingCards e.
Proof.
  destruct c as [cardId|]; simpl.
  - unfold selectCard. destruct (_gameOver e); [done|].
    destruct (getCurrentReadingCard e); [|done].
    case_bool_decide; simpl; split_and!; try done. apply sublist_filter.
  - unfold nextRound. destruct (_gameOver e); [done|]. simpl.
    by destruct (_ || _).
Qed.

Lemma run_setup (cs : list call) (e : GameEngine) :
  _allPoems (run cs e) = _allPoems e
  ∧ _readingOrder (run cs e) = _readingOrder e
  ∧ _totalRounds (run cs e) = _totalRounds e
  ∧ _remainingCards (run cs e) `sublist_of` _remainingCards e
  ∧ length (_remainingCards (run cs e)) ≤ length (_remainingCards e).
Proof.
  assert (_allPoems (run cs e) = _allPoems e
          ∧ _readingOrder (run cs e) = _readingOrder e
          ∧ _totalRounds (run cs e) = _totalRounds e
          ∧ _remainingCards (run cs e) `sublist_of` _remainingCards e)
    as (Ha & Ho & Ht & Hp).
  { revert e. induction cs as [|c cs IH]; intros e; simpl; [done|].
    destruct (IH (exec c e)) as (-> & -> & -> & Hsub).
    destruct (exec_setup c e) as (-> & -> & -> & Hsub').
    split_and!; try done. by etrans. }
  split_and!; try done. by apply sublist_length.
Qed.

(** X1: no sequence of [selectCard] and [nextRound] calls, from any engine
    state, changes the poem collection, the reading order or [totalRounds];
    the pool only ever loses cards, the ones that stay keeping their order. *)
Theorem run_keeps_setup (cs : list call) (e : GameEngine) :
  _allPoems (run cs e) = _allPoems e
  ∧ _readingOrder (run cs e) = _readingOrder e
  ∧ _totalRounds (run cs e) = _totalRounds e
  ∧ _remainingCards (run cs e) `sublist_of` _remainingCards e
  ∧ length (_remainingCards (run cs e)) ≤ length (_remainingCards e).
Proof. apply run_setup. Qed.

(** X2: in a game on poems with pairwise distinct ids, at every moment the
    pool holds cards of the collection only, no two with the same id, and
    its cards are a sub-sequence of the pool dealt by [initGame]. *)
Theorem pool_stays_clean (poems : list Poem) (g : rng) (cs : list call)
    (e : GameEngine) :
  NoDup (id <$> poems) →
  start poems g = Some e →
  let pool := GameState.remainingCards (getGameState (run cs e)) in
  NoDup (id <$> pool)
  ∧ (∀ card, card ∈ pool → card ∈ poems)
  ∧ pool `sublist_of` _remainingCards e
  ∧ length pool ≤ length poems.
Proof.
  intros Hnd He. simpl.
  pose proof (played_inv _ _ cs _ He) as Hinv.
  destruct (start_inv _ _ _ He) as (_ & Hpool & _).
  destruct (run_setup cs e) as (_ & _ & _ & Hsub & Hlen).
  split_and!.
  - apply (NoDup_keys_submseteq id _ poems); [by apply inv_pool|done].
  - intros card Hc. eapply elem_of_submseteq; [exact Hc|by apply inv_pool].
  - done.
  - by rewrite <- Hpool.
Qed.

Lemma pool_stays_clean_witness :
  let pool := GameState.remainingCards
                (getGameState (run [SelectCard 2; NextRound] sample_game)) in
  pool = [sample_poem 1; sample_poem 3]
  ∧ NoDup (id <$> pool)
  ∧ pool `sublist_of` _remainingCards sample_game.
Proof.
  assert (NoDup (id <$> sample_poems)) as Hnd
    by (by apply (bool_decide_unpack _)).
  destruct (pool_stays_clean sample_poems sample_rng
              [SelectCard 2; NextRound] sample_game Hnd eq_refl)
    as (Hclean & _ & Hsub & _).
  split_and!; [reflexivity|exact Hclean|exact Hsub].
Defined.

Lemma gameOver_absorbing (cs : list call) (e : GameEngine) :
  _gameOver (run cs e) = false → _gameOver e = false.
Proof.
  destruct (_gameOver e) eqn:Hover; [|done].
  by rewrite (run_over cs e Hover), Hover.
Qed.

Lemma run_app (cs1 cs2 : list call) (e : GameEngine) :
  run (cs1 ++ cs2) e = run cs2 (run cs1 e).
Proof. revert e. induction cs1 as [|c cs1 IH]; intros e; simpl; [done|apply IH]. Qed.

Lemma exec_round (c : call) (e : GameEngine) :
  _currentRound (exec c e)
  = _currentRound e
    + match c with
      | SelectCard _ => 0
      | NextRound => if _gameOver e then 0 else 1
      end.
Proof.
  destruct c as [cardId|]; simpl.
  - unfold selectCard. destruct (_gameOver e); [simpl; lia|].
    destruct (getCurrentReadingCard e); [|simpl; lia].
    case_bool_decide; simpl; lia.
  - unfold nextRound. destruct (_gameOver e); [simpl; lia|]. simpl.
    by destruct (_ || _).
Qed.

Lemma run_round (cs : list call) (e : GameEngine) :
  _currentRound (run cs e) = _currentRound e + advances cs e.
Proof.
  revert e. induction cs as [|c cs IH]; intros e; simpl; [lia|].
  rewrite IH, exec_round. destruct c; lia.
Qed.

(** X3: from any engine state, the round index grows by exactly the number
    of [nextRound] calls that found the game not over; [selectCard] never
    moves it, and it never decreases. *)
Theorem round_counts_advances (cs : list call) (e : GameEngine) :
  _currentRound (run cs e) = _currentRound e + advances cs e
  ∧ GameState.currentRound (getGameState (run cs e))
    = GameState.currentRound (getGameState e) + advances cs e.
Proof. split; [apply run_round|]. simpl. rewrite run_round. lia. Qed.

Lemma live_run_advances (cs : list call) (e : GameEngine) :
  _gameOver (run cs e) = false →
  advances cs e = length (filter (λ c, c = NextRound) cs).
Proof.
  revert e. induction cs as [|c cs IH]; intros e Hlive; [done|].
  simpl in *. rewrite (IH _ Hlive).
  pose proof (gameOver_absorbing cs _ Hlive) as Hlive1.
  pose proof (gameOver_absorbing [c] e Hlive1) as Hlive0. simpl in Hlive0.
  destruct c as [cardId|].
  - by rewrite filter_cons_False.
  - rewrite filter_cons_True by done. by rewrite Hlive0.
Qed.

(** X4: a game on [n] poems is over once [nextRound] has been called [n]
    times, whatever [selectCard] calls came in between and whatever they
    answered. *)
Theorem game_ends_within_totalRounds (poems : list Poem) (g : rng)
    (cs : list call) (e : GameEngine) :
  start poems g = Some e →
  length poems ≤ length (filter (λ c, c = NextRound) cs) →
  isGameOver (run cs e) = true.
Proof.
  intros He Hmany. unfold isGameOver.
  destruct (_gameOver (run cs e)) eqn:Hover; [done|]. exfalso.
  pose proof (played_inv _ _ cs _ He) as Hinv.
  pose proof (inv_live _ _ Hinv Hover) as Hlt.
  rewrite (inv_total _ _ Hinv) in Hlt.
  pose proof (run_round cs e) as Hround.
  rewrite (live_run_advances _ _ Hover) in Hround. lia.
Qed.

Lemma game_ends_within_totalRounds_witness :
  isGameOver (run [NextRound; SelectCard 1; NextRound; NextRound] sample_game)
  = true.
Proof.
  apply (game_ends_within_totalRounds sample_poems sample_rng);
    [reflexivity|vm_compute; lia].
Defined.

(** X5: from any engine state, the score grows by exactly the number of
    [selectCard] calls that answered [correct: true]; nothing else changes
    it. *)
Theorem score_counts_correct_answers (cs : list call) (e : GameEngine) :
  _score (run cs e) = _score e + answered_correct cs e
  ∧ ScoreData.score (getScoreData (run cs e))
    = ScoreData.score (getScoreData e) + answered_correct cs e.
Proof.
  assert (_score (run cs e) = _score e + answered_correct cs e) as H;
    [|by split].
  revert e. induction cs as [|c cs IH]; intros e; simpl; [lia|].
  rewrite IH. destruct c as [cardId|]; simpl.
  - unfold selectCard. destruct (_gameOver e); [simpl; lia|].
    destruct (getCurrentReadingCard e); [|simpl; lia].
    case_bool_decide; simpl; lia.
  - destruct (nextRound_counts e) as [-> _]. lia.
Qed.

Lemma filter_out_at_most_one {A B : Type} `{!EqDecision B} (key : A → B)
    (l : list A) (b : B) :
  NoDup (key <$> l) → length l ≤ S (length (filter (λ y, key y ≠ b) l)).
Proof.
  intros Hnd. destruct (decide (b ∈ key <$> l)) as [Hin|Hnotin].
  - apply list_elem_of_fmap in Hin as (x & -> & Hx).
    destruct (filter_out_unique key l x Hnd Hx) as (l1 & l2 & -> & ->).
    rewrite !length_app. simpl. lia.
  - rewrite (filter_all (λ y, key y ≠ b)); [lia|].
    intros y Hy Hkey. apply Hnotin. rewrite <- Hkey.
    by apply list_elem_of_fmap_2.
Qed.

Lemma exec_pool_plus_score (poems : list Poem) (c : call) (e : GameEngine) :
  NoDup (id <$> poems) → reachable_inv poems e →
  length (_remainingCards e) + _score e
  ≤ length (_remainingCards (exec c e)) + _score (exec c e).
Proof.
  intros Hnd Hinv.
  pose proof (NoDup_keys_submseteq id _ _ (inv_pool _ _ Hinv) Hnd) as Hpool.
  destruct c as [cardId|]; simpl.
  - unfold selectCard. destruct (_gameOver e); [done|].
    destruct (getCurrentReadingCard e); [|done].
    case_bool_decide; simpl; [|lia].
    pose proof (filter_out_at_most_one id (_remainingCards e) cardId Hpool).
    lia.
  - unfold nextRound. destruct (_gameOver e); [done|]. simpl.
    by destruct (_ || _).
Qed.

(** X6: in a game on poems with pairwise distinct ids, the number of cards
    left plus the score is never below the number of poems: every card that
    left the pool was paid for by a correct answer.  (The sum can exceed the
    number of poems, see C10.) *)
Theorem remaining_plus_score (poems : list Poem) (g : rng) (cs : list call)
    (e : GameEngine) :
  NoDup (id <$> poems) →
  start poems g = Some e →
  let data := getScoreData (run cs e) in
  length poems ≤ ScoreData.remaining data + ScoreData.score data.
Proof.
  intros Hnd He. simpl.
  destruct (start_inv _ _ _ He) as (Hinv & Hpool & _ & Hscore & _).
  assert (∀ s, reachable_inv poems s →
               length (_remainingCards s) + _score s
               ≤ length (_remainingCards (run cs s)) + _score (run cs s))
    as Hmono.
  { induction cs as [|c cs IH]; intros s Hs; simpl; [done|].
    etrans; [by apply (exec_pool_plus_score poems c)|].
    by apply IH, exec_inv. }
  specialize (Hmono e Hinv). rewrite Hpool, Hscore in Hmono. lia.
Qed.

Lemma remaining_plus_score_witness :
  let data := getScoreData (run [SelectCard 2; SelectCard 1; NextRound]
                              sample_game) in
  ScoreData.remaining data = 2 ∧ ScoreData.score data = 1
  ∧ length sample_poems ≤ ScoreData.remaining data + ScoreData.score data.
Proof.
  assert (NoDup (id <$> sample_poems)) as Hnd
    by (by apply (bool_decide_unpack _)).
  split_and!; [reflexivity|reflexivity|].
  by apply (remaining_plus_score sample_poems sample_rng).
Defined.

(** One round of perfect play, from a live state whose pool is, up to
    order, the part of the reading order not yet read. *)
Lemma perfect_round (poems : list Poem) (e : GameEngine) (p : Poem)
    (rest : list Poem) :
  NoDup (id <$> poems) → reachable_inv poems e →
  _gameOver e = false →
  drop (_currentRound e) (_readingOrder e) = p :: rest →
  _remainingCards e ≡ₚ p :: rest →
  let e' := run [SelectCard (id p); NextRound] e in
  _score e' = _score e + 1
  ∧ _incorrectCount e' = _incorrectCount e
  ∧ _currentRound e' = _currentRound e + 1
  ∧ _remainingCards e' ≡ₚ rest
  ∧ _gameOver e' = bool_decide (rest = []).
Proof.
  intros Hnd Hinv Hlive Hdrop Hpool.
  assert (_readingOrder e !! _currentRound e = Some p) as Hp.
  { rewrite <- (Nat.add_0_r (_currentRound e)), <- lookup_drop.
    by rewrite Hdrop. }
  assert (getCurrentReadingCard e = Some p) as Hprompt.
  { destruct (live_prompt _ _ Hinv Hlive) as (q & Hq & Hq' & _). congruence. }
  assert (length rest = _totalRounds e - S (_currentRound e)) as Hlen.
  { apply (f_equal length) in Hdrop. rewrite length_drop in Hdrop.
    rewrite (inv_total _ _ Hinv), <- (inv_order _ _ Hinv).
    simpl in Hdrop. lia. }
  simpl. rewrite (selectCard_hit _ _ Hlive Hprompt). simpl.
  set (pool' := filter (λ card, id card ≠ id p) (_remainingCards e)).
  assert (pool' ≡ₚ rest) as Hpool'.
  { unfold pool'. rewrite Hpool.
    rewrite filter_cons_False by (intros Hne; by apply Hne).
    rewrite filter_all; [done|]. intros q Hq Heq.
    assert (NoDup (id <$> p :: rest)) as Hnd'.
    { rewrite <- Hpool.
      apply (NoDup_keys_submseteq id _ poems); [by apply inv_pool|done]. }
    rewrite fmap_cons in Hnd'. apply NoDup_cons in Hnd' as [Hnotin _].
    apply Hnotin. rewrite <- Heq. by apply list_elem_of_fmap_2. }
  unfold nextRound. simpl. rewrite Hlive. simpl.
  pose proof (inv_live _ _ Hinv Hlive) as Hlt.
  assert (length pool' = length rest) as Hlen' by by rewrite Hpool'.
  destruct rest as [|q rest].
  - rewrite bool_decide_eq_true_2 by (simpl in *; lia). simpl.
    split_and!; done.
  - rewrite bool_decide_eq_false_2 by (simpl in *; lia).
    rewrite bool_decide_eq_false_2 by (simpl in *; lia). simpl.
    split_and!; done.
Qed.

Lemma perfect_play_from (poems : list Poem) (rest : list Poem)
    (e : GameEngine) :
  NoDup (id <$> poems) → reachable_inv poems e →
  _gameOver e = bool_decide (rest = []) →
  drop (_currentRound e) (_readingOrder e) = rest →
  _remainingCards e ≡ₚ rest →
  let e' := run (perfect_play rest) e in
  _gameOver e' = true
  ∧ _score e' = _score e + length rest
  ∧ _incorrectCount e' = _incorrectCount e
  ∧ _currentRound e' = _currentRound e + length rest
  ∧ _remainingCards e' = [].
Proof.
  intros Hnd. revert e.
  induction rest as [|p rest IH]; intros e Hinv Hover Hdrop Hpool.
  - simpl. rewrite bool_decide_eq_true_2 in Hover by done.
    apply Permutation_nil_r in Hpool. split_and!; try done; lia.
  - rewrite bool_decide_eq_false_2 in Hover by done.
    destruct (perfect_round poems e p rest Hnd Hinv Hover Hdrop Hpool)
      as (Hs & Hi & Hr & Hp & Ho).
    change (perfect_play (p :: rest))
      with ([SelectCard (id p); NextRound] ++ perfect_play rest).
    rewrite run_app.
    set (e1 := run [SelectCard (id p); NextRound] e) in *.
    destruct (IH e1) as (Ho' & Hs' & Hi' & Hr' & Hp'); try done.
    + by apply run_inv.
    + destruct (run_setup [SelectCard (id p); NextRound] e)
        as (_ & Horder & _). fold e1 in Horder.
      rewrite Horder, Hr.
      apply (f_equal (drop 1)) in Hdrop. rewrite drop_drop in Hdrop.
      exact Hdrop.
    + split_and!; try done; simpl; lia.
Qed.

(** X7: on poems with pairwise distinct ids, the player who in every round
    takes the card of the prompt and then moves on finishes the game exactly
    with the last poem: the game is over, the score is the number of poems,
    no answer was wrong, the pool is empty and the round index has reached
    [totalRounds]. *)
Theorem perfect_game (poems : list Poem) (g : rng) (e : GameEngine) :
  NoDup (id <$> poems) →
  start poems g = Some e →
  let s := run (perfect_play (_readingOrder e)) e in
  isGameOver s = true
  ∧ _score s = length poems
  ∧ _incorrectCount s = 0
  ∧ _remainingCards s = []
  ∧ _currentRound s = _totalRounds s.
Proof.
  intros Hnd He.
  destruct (start_inv _ _ _ He) as (Hinv & Hpool & Hr & Hs & Hi & Ho).
  destruct (perfect_play_from poems (_readingOrder e) e)
    as (Ho' & Hs' & Hi' & Hr' & Hp'); try done.
  - rewrite Ho. symmetry. apply bool_decide_eq_false_2. intros Hnil.
    apply (inv_nonempty _ _ Hinv).
    apply Permutation_nil_r. by rewrite <- (inv_order _ _ Hinv), Hnil.
  - by rewrite Hr.
  - by rewrite Hpool, (inv_order _ _ Hinv).
  - simpl. unfold isGameOver.
    destruct (run_setup (perfect_play (_readingOrder e)) e)
      as (_ & _ & Ht & _).
    rewrite Ht, (inv_total _ _ Hinv), <- (inv_order _ _ Hinv) in *.
    split_and!; try done; lia.
Qed.

Lemma perfect_game_witness :
  let s := run (perfect_play (_readingOrder sample_game)) sample_game in
  perfect_play (_readingOrder sample_game)
  = [SelectCard 2; NextRound; SelectCard 3; NextRound; SelectCard 1;
     NextRound]
  ∧ isGameOver s = true ∧ _score s = 3 ∧ _remainingCards s = [].
Proof.
  assert (NoDup (id <$> sample_poems)) as Hnd
    by (by apply (bool_decide_unpack _)).
  destruct (perfect_game sample_poems sample_rng sample_game Hnd eq_refl)
    as (Ho & Hs & _ & Hp & _).
  split_and!; [reflexivity|exact Ho|exact Hs|exact Hp].
Defined.

(** X8: [initGame] is a full reset: called after any play, it gives exactly
    the game that a fresh engine on the same poems gives with the same
    random draws. *)
Theorem initGame_resets (poems : list Poem) (g g' : rng) (cs : list call)
    (e : GameEngine) :
  start poems g = Some e →
  start poems g' = Some (initGame (run cs e) g').1.2
  ∧ initGame (run cs e) g' = initGame e g'.
Proof.
  intros He.
  pose proof (played_inv _ _ cs _ He) as Hinv.
  destruct (start_inv _ _ _ He) as (Hinv0 & _).
  assert (∀ s, _allPoems s = poems → start poems g' = Some (initGame s g').1.2)
    as Hfresh.
  { intros s Hs. unfold start, new_GameEngine.
    rewrite bool_decide_eq_false_2; simpl.
    - unfold initGame. simpl. rewrite Hs.
      by destruct (fisherYatesShuffle poems g'), (fisherYatesShuffle poems _).
    - pose proof (inv_nonempty _ _ Hinv). by destruct poems. }
  split; [by apply Hfresh, inv_all|].
  unfold initGame.
  by rewrite (inv_all _ _ Hinv), (inv_all _ _ Hinv0).
Qed.

Lemma initGame_resets_witness :
  let played := run [SelectCard 2; NextRound; SelectCard 1] sample_game in
  _score played = 1
  ∧ (initGame played sample_rng).1.2 = sample_game.
Proof.
  destruct (initGame_resets sample_poems sample_rng sample_rng
              [SelectCard 2; NextRound; SelectCard 1] sample_game eq_refl)
    as [_ Hsame].
  split; [reflexivity|]. by rewrite Hsame.
Defined.

(** * Further properties of the shuffle *)

Section ShuffleMore.
Context {A : Type}.
Implicit Types (arr pre suf target : list A) (g : rng).

Lemma shuffle_loop_consumes i arr g :
  length (shuffle_loop i arr g).1 = length arr
  ∧ consumed (shuffle_loop i arr g).2 = consumed g + i
  ∧ draws (shuffle_loop i arr g).2 = draws g.
Proof.
  revert arr g. induction i as [|i IH]; intros arr g; simpl.
  - split_and!; [done|lia|done].
  - destruct (IH (swap arr (S i) (floor_scaled (draws g (consumed g)) (S (i + 1))))
                {| draws := draws g; consumed := S (consumed g) |})
      as (-> & -> & ->).
    rewrite swap_length. simpl. split_and!; [done|lia|done].
Qed.

(** The loop reads only the draws it consumes. *)
Lemma shuffle_loop_ext i arr (f f' : nat → draw) (c : nat) :
  (∀ k, c ≤ k < c + i → f k = f' k) →
  (shuffle_loop i arr {| draws := f; consumed := c |}).1
  = (shuffle_loop i arr {| draws := f'; consumed := c |}).1.
Proof.
  revert arr c. induction i as [|i IH]; intros arr c Hsame; simpl; [done|].
  rewrite (Hsame c) by lia. apply IH. intros k Hk. apply Hsame. lia.
Qed.

Lemma swap_app pre suf i j :
  i < length pre → j < length pre →
  swap (pre ++ suf) i j = swap pre i j ++ suf.
Proof.
  intros Hi Hj. unfold swap. rewrite !lookup_app_l by done.
  destruct (pre !! i) as [ai|]; [|done].
  destruct (pre !! j) as [aj|]; [|done].
  rewrite insert_app_l by done.
  by rewrite insert_app_l by by rewrite length_insert.
Qed.

(** With index [i] the loop works on the first [i + 1] elements only. *)
Lemma shuffle_loop_app i pre suf g :
  i < length pre →
  shuffle_loop i (pre ++ suf) g
  = ((shuffle_loop i pre g).1 ++ suf, (shuffle_loop i pre g).2).
Proof.
  revert pre g. induction i as [|i IH]; intros pre g Hi; simpl; [done|].
  pose proof (floor_scaled_lt (draws g (consumed g)) (S (i + 1))).
  rewrite swap_app by lia.
  apply IH. rewrite swap_length. lia.
Qed.

Lemma swap_to_last arr n j x :
  length arr = S n → arr !! j = Some x →
  ∃ pre, swap arr n j = pre ++ [x] ∧ length pre = n ∧ pre ++ [x] ≡ₚ arr.
Proof.
  intros Hlen Hj.
  assert (swap arr n j !! n = Some x) as Hlast.
  { destruct (lookup_lt_is_Some_2 arr n) as [temp Hn]; [lia|].
    unfold swap. rewrite Hn, Hj.
    destruct (decide (j = n)) as [->|Hne].
    - rewrite list_lookup_insert_eq by (rewrite length_insert; lia).
      congruence.
    - rewrite list_lookup_insert_ne by done.
      by rewrite list_lookup_insert_eq by lia. }
  exists (take n (swap arr n j)).
  assert (take n (swap arr n j) ++ [x] = swap arr n j) as Heq.
  { rewrite <- (take_S_r _ _ _ Hlast).
    apply take_ge. rewrite swap_length. lia. }
  split_and!.
  - done.
  - rewrite length_take, swap_length. lia.
  - rewrite Heq. apply swap_Permutation.
Qed.

Lemma shuffle_loop_onto i arr target (c : nat) :
  length arr = S i → arr ≡ₚ target →
  ∃ f, (shuffle_loop i arr {| draws := f; consumed := c |}).1 = target.
Proof.
  revert arr target c.
  induction i as [|i IH]; intros arr target c Hlen Hperm.
  - exists (λ _, {| dnum := 0; dgap := 0 |}). simpl.
    destruct arr as [|a [|??]]; try done.
    by apply Permutation_singleton_l.
  - assert (length target = S (S i)) as Hlen' by by rewrite <- Hperm.
    destruct (lookup_lt_is_Some_2 target (S i)) as [x Hx]; [lia|].
    assert (target = take (S i) target ++ [x]) as Htarget.
    { rewrite <- (take_S_r _ _ _ Hx). symmetry. apply take_ge. lia. }
    assert (x ∈ arr) as Hin.
    { rewrite Hperm. by eapply list_elem_of_lookup_2. }
    apply list_elem_of_lookup_1 in Hin as [j Hj].
    pose proof (lookup_lt_Some _ _ _ Hj) as Hjlt.
    destruct (swap_to_last arr (S i) j x Hlen Hj) as (pre & Hswap & Hpre & Hp).
    assert (pre ≡ₚ take (S i) target) as Hpre'.
    { apply (Permutation_app_inv_r [x]).
      by rewrite Hp, Hperm, <- Htarget. }
    destruct (IH pre (take (S i) target) (S c) Hpre Hpre') as [f0 Hf0].
    exists (λ k, if decide (k = c) then {| dnum := j; dgap := S i + 1 - 1 - j |}
                 else f0 k).
    cbn [shuffle_loop Math_random draws consumed].
    rewrite decide_True by done.
    rewrite (floor_scaled_onto (S i + 1) j) by lia.
    rewrite Hswap, shuffle_loop_app by lia. simpl.
    rewrite Htarget. f_equal. rewrite <- Hf0.
    apply shuffle_loop_ext. intros k Hk. by rewrite decide_False by lia.
Qed.
End ShuffleMore.

(** X9: [fisherYatesShuffle] keeps the length of the array and draws exactly
    [length - 1] random numbers (none for an empty array); [initGame]
    therefore draws [2 * (n - 1)] numbers for [n] poems. *)
Theorem shuffle_consumes :
  (∀ (A : Type) (array : list A) (g : rng),
     length (fisherYatesShuffle array g).1 = length array
     ∧ consumed (fisherYatesShuffle array g).2
       = consumed g + (length array - 1)
     ∧ draws (fisherYatesShuffle array g).2 = draws g)
  ∧ (∀ (e : GameEngine) (g : rng),
       consumed (initGame e g).2
       = consumed g + 2 * (length (_allPoems e) - 1)).
Proof.
  split.
  - intros A array g. apply shuffle_loop_consumes.
  - intros e g. unfold initGame.
    pose proof (shuffle_loop_consumes (length (_allPoems e) - 1)
                  (_allPoems e) g) as (_ & H1 & _).
    fold (fisherYatesShuffle (_allPoems e) g) in H1.
    destruct (fisherYatesShuffle (_allPoems e) g) as [ro g1]. simpl in H1.
    pose proof (shuffle_loop_consumes (length (_allPoems e) - 1)
                  (_allPoems e) g1) as (_ & H2 & _).
    fold (fisherYatesShuffle (_allPoems e) g1) in H2.
    destruct (fisherYatesShuffle (_allPoems e) g1) as [rc g2]. simpl in *.
    lia.
Qed.

(** X10: the shuffle can produce every ordering: for every permutation of
    the input there are random draws for which [fisherYatesShuffle] returns
    exactly that permutation. *)
Theorem shuffle_reaches_every_permutation (A : Type) (array target : list A) :
  array ≡ₚ target →
  ∃ g, (fisherYatesShuffle array g).1 = target.
Proof.
  intros Hperm. unfold fisherYatesShuffle.
  destruct array as [|a array].
  - apply Permutation_nil_l in Hperm as <-.
    by exists {| draws := λ _, {| dnum := 0; dgap := 0 |}; consumed := 0 |}.
  - destruct (shuffle_loop_onto (length array) (a :: array) target 0)
      as [f Hf]; [done..|].
    exists {| draws := f; consumed := 0 |}.
    simpl. by rewrite Nat.sub_0_r.
Qed.

Lemma shuffle_reaches_every_permutation_witness :
  ∃ g, (fisherYatesShuffle [1; 2; 3] g).1 = [3; 1; 2].
Proof.
  apply shuffle_reaches_every_permutation.
  change [3; 1; 2] with ([3] ++ [1; 2]).
  change [1; 2; 3] with ([1; 2] ++ [3]).
  apply Permutation_app_comm.
Defined.

(** X11: the two shuffles of [initGame] are independent: for any two
    orderings of the poems there are random draws for which [initGame] makes
    the first the reading order and the second the layout of the pool. *)
Theorem initGame_reaches_every_deal (poems order layout : list Poem) :
  poems ≠ [] → poems ≡ₚ order → poems ≡ₚ layout →
  ∃ g e, start poems g = Some e
         ∧ _readingOrder e = order ∧ _remainingCards e = layout.
Proof.
  intros Hne Horder Hlayout.
  destruct poems as [|p poems]; [done|].
  set (n := length poems).
  destruct (shuffle_loop_onto n (p :: poems) order 0) as [f1 Hf1]; [done..|].
  destruct (shuffle_loop_onto n (p :: poems) layout n) as [f2 Hf2]; [done..|].
  set (f := λ k, if decide (k < n) then f1 k else f2 k).
  exists {| draws := f; consumed := 0 |}.
  unfold start, new_GameEngine. simpl.
  eexists. split; [reflexivity|].
  unfold initGame, fisherYatesShuffle. simpl. rewrite Nat.sub_0_r. fold n.
  pose proof (shuffle_loop_consumes n (p :: poems)
                {| draws := f; consumed := 0 |}) as (_ & Hc & Hd).
  destruct (shuffle_loop n (p :: poems) {| draws := f; consumed := 0 |})
    as [ro g1] eqn:H1. simpl in Hc, Hd.
  assert (ro = order) as ->.
  { rewrite <- Hf1.
    change ro with (ro, g1).1. rewrite <- H1.
    apply shuffle_loop_ext. intros k Hk. unfold f.
    by rewrite decide_True by lia. }
  destruct g1 as [d1 c1]. simpl in Hc, Hd. subst d1 c1.
  destruct (shuffle_loop n (p :: poems) {| draws := f; consumed := n |})
    as [rc g2] eqn:H2. simpl.
  split; [done|].
  rewrite <- Hf2. change rc with (rc, g2).1. rewrite <- H2.
  apply shuffle_loop_ext. intros k Hk. unfold f.
  by rewrite decide_False by lia.
Qed.

Lemma initGame_reaches_every_deal_witness :
  ∃ g e, start sample_poems g = Some e
         ∧ _readingOrder e = [sample_poem 3; sample_poem 2; sample_poem 1]
         ∧ _remainingCards e = sample_poems.
Proof.
  apply initGame_reaches_every_deal; [done| |done].
  symmetry. apply (reverse_Permutation sample_poems).
Defined.

(** * Further properties of the score manager *)

Lemma score_run_fields (cs : list score_call) (s : ScoreManager.t) :
  ScoreManager._totalCards (score_run cs s) = ScoreManager._totalCards s
  ∧ ScoreManager._correct (score_run cs s)
    = (ScoreManager._correct s
       + Z.of_nat (length (filter (λ c, c = AddCorrect) cs)))%Z
  ∧ ScoreManager._incorrect (score_run cs s)
    = (ScoreManager._incorrect s
       + Z.of_nat (length (filter (λ c, c = AddIncorrect) cs)))%Z.
Proof.
  revert s. induction cs as [|c cs IH]; intros s; simpl.
  - split_and!; [done|lia|lia].
  - destruct (IH (score_exec c s)) as (-> & -> & ->).
    destruct c.
    + rewrite (filter_cons_True (λ c, c = AddCorrect)) by done.
      rewrite (filter_cons_False (λ c, c = AddIncorrect)) by done.
      simpl. split_and!; [done|lia|lia].
    + rewrite (filter_cons_False (λ c, c = AddCorrect)) by done.
      rewrite (filter_cons_True (λ c, c = AddIncorrect)) by done.
      simpl. split_and!; [done|lia|lia].
Qed.

(** X12: after a sequence of [addCorrect] and [addIncorrect] calls on a
    manager built for [total] cards, with [total] and the number of calls
    not above 2^53 (beyond which Numbers are no longer exact), [correct] and
    [incorrect] are the numbers of the respective calls; [remaining] is
    [total] minus the correct count, cut off at zero, so it lies between 0
    and [total]; and [correct] is not capped: with more than [total] calls
    it exceeds [total] while [remaining] stays 0. *)
Theorem ScoreManager_counts (total : Z) (cs : list score_call)
    (s0 : ScoreManager.t) :
  (total ≤ 2 ^ 53)%Z → (Z.of_nat (length cs) ≤ 2 ^ 53)%Z →
  ScoreManager.new (JNum (Integer total)) = Some s0 →
  let s := score_run cs s0 in
  let right := Z.of_nat (length (filter (λ c, c = AddCorrect) cs)) in
  let wrong := Z.of_nat (length (filter (λ c, c = AddIncorrect) cs)) in
  ScoreManager._correct s = right
  ∧ ScoreManager._incorrect s = wrong
  ∧ ScoreManager._totalCards s = total
  ∧ ScoreManager.remaining s = Z.max 0 (total - right)
  ∧ (0 ≤ ScoreManager.remaining s ≤ total)%Z
  ∧ ((total < right)%Z →
     (total < ScoreManager._correct s)%Z ∧ ScoreManager.remaining s = 0%Z).
Proof.
  intros Hsafe Hcalls.
  unfold ScoreManager.new. case_bool_decide as Hneg; [done|].
  intros [= <-]. simpl.
  destruct (score_run_fields cs
              {| ScoreManager._totalCards := total;
                 ScoreManager._correct := 0;
                 ScoreManager._incorrect := 0 |}) as (Ht & Hc & Hi).
  pose proof (length_filter (λ c, c = AddCorrect) cs) as Hright.
  unfold ScoreManager.remaining. rewrite Ht, Hc, Hi. simpl.
  rewrite Number_sub_safe by lia.
  split_and!; try lia.
Qed.

Lemma ScoreManager_counts_witness :
  let s := score_run [AddCorrect; AddIncorrect; AddCorrect; AddCorrect;
                      AddCorrect]
             {| ScoreManager._totalCards := 3; ScoreManager._correct := 0;
                ScoreManager._incorrect := 0 |} in
  ScoreManager._correct s = 4%Z ∧ ScoreManager._incorrect s = 1%Z
  ∧ ScoreManager.remaining s = 0%Z.
Proof.
  destruct (ScoreManager_counts 3
              [AddCorrect; AddIncorrect; AddCorrect; AddCorrect; AddCorrect]
              {| ScoreManager._totalCards := 3; ScoreManager._correct := 0;
                 ScoreManager._incorrect := 0 |})
    as (Hc & Hi & _ & _ & _ & Hover);
    [by vm_compute|by vm_compute|reflexivity|].
  split_and!; [exact Hc|exact Hi|].
  apply Hover. vm_compute. reflexivity.
Defined.

(** X13: [reset] gives what a fresh construction gives: without an argument
    ([undefined]) the manager is as it was when built, with an argument it
    is what the constructor gives for that argument; so it throws exactly
    when an argument is given that is not a number, not an integer, or
    negative, while the constructor throws without an argument as well. *)
Theorem ScoreManager_reset_is_new (totalCards : jsval)
    (cs : list score_call) (s0 : ScoreManager.t) :
  ScoreManager.new totalCards = Some s0 →
  let s := score_run cs s0 in
  ScoreManager.reset JUndefined s = Some s0
  ∧ (∀ arg, arg ≠ JUndefined →
       ScoreManager.reset arg s = ScoreManager.new arg)
  ∧ (∀ arg, ScoreManager.reset arg s = None ↔
       arg ≠ JUndefined ∧ ∀ n, (0 ≤ n)%Z → arg ≠ JNum (Integer n))
  ∧ ScoreManager.new JUndefined = None.
Proof.
  intros Hnew. simpl.
  assert (∃ total, s0 = {| ScoreManager._totalCards := total;
                           ScoreManager._correct := 0;
                           ScoreManager._incorrect := 0 |}) as [total ->].
  { unfold ScoreManager.new in Hnew.
    destruct totalCards as [| | |[n|]| | |]; try done.
    case_bool_decide; [done|]. injection Hnew as <-. by eexists. }
  destruct (score_run_fields cs
              {| ScoreManager._totalCards := total;
                 ScoreManager._correct := 0;
                 ScoreManager._incorrect := 0 |}) as (Ht & _).
  split_and!.
  - unfold ScoreManager.reset. by rewrite Ht.
  - intros arg Harg. by destruct arg.
  - intros arg. unfold ScoreManager.reset.
    destruct arg as [| | |[n|]| | |];
      try (split; [intros _; split; [done|by intros ???]|done]).
    + split; [done|by intros [? _]].
    + case_bool_decide as Hneg.
      * split; [|done]. intros _. split; [done|].
        intros n' Hn' [= ->]. lia.
      * split; [done|]. intros [_ Hno]. destruct (Hno n); [lia|done].
  - done.
Qed.

Lemma ScoreManager_reset_is_new_witness :
  let s0 := {| ScoreManager._totalCards := 10; ScoreManager._correct := 0;
               ScoreManager._incorrect := 0 |} in
  let s := score_run [AddCorrect; AddCorrect; AddIncorrect] s0 in
  ScoreManager.reset JUndefined s = Some s0
  ∧ ScoreManager.remaining <$> ScoreManager.reset (JNum (Integer 20)) s
    = Some 20%Z
  ∧ ScoreManager.reset (JNum (Integer (-5))) s = None
  ∧ ScoreManager.reset (JNum NonInteger) s = None
  ∧ ScoreManager.reset (JStr [49; 48]%N) s = None
  ∧ ScoreManager.reset JNull s = None.
Proof.
  intros s0 s.
  destruct (ScoreManager_reset_is_new (JNum (Integer 10))
              [AddCorrect; AddCorrect; AddIncorrect] s0 eq_refl)
    as (Hnone & Hsome & Hfail & _).
  split_and!.
  - exact Hnone.
  - unfold s. by rewrite Hsome.
  - apply Hfail. split; [done|]. intros n Hn [= Heq]. lia.
  - apply Hfail. by split.
  - apply Hfail. by split.
  - apply Hfail. by split.
Defined.

(** * Further properties of the validator *)

Lemma trimStart_nil (s : jsstring) :
  trimStart s = [] ↔ Forall (λ c, is_space c = true) s.
Proof.
  induction s as [|c s IH]; simpl; [done|].
  rewrite Forall_cons. destruct (is_space c) eqn:Hc.
  - rewrite IH. tauto.
  - split; [done|]. by intros [[=] _].
Qed.

Lemma trimStart_head (s : jsstring) (c : N) (t : jsstring) :
  trimStart s = c :: t → is_space c = false.
Proof.
  induction s as [|c' s IH]; simpl; [done|].
  destruct (is_space c') eqn:Hc; [done|]. by intros [= <- _].
Qed.

(** A string is empty after [trim] exactly when all it holds is white
    space. *)
Lemma trim_blank (s : jsstring) :
  length (trim s) = 0 ↔ Forall (λ c, is_space c = true) s.
Proof.
  unfold trim, trimEnd.
  rewrite length_reverse, length_zero_iff_nil, trimStart_nil, Forall_reverse.
  split.
  - intros Hall. destruct (trimStart s) as [|c t] eqn:Hs.
    + by apply trimStart_nil.
    + apply trimStart_head in Hs. apply Forall_cons in Hall as [Hc _].
      congruence.
  - intros Hall. by rewrite (proj2 (trimStart_nil s) Hall).
Qed.

Lemma check_id_elem (poem : jsval) (m : string) :
  m ∈ check_id poem ↔
  (m = "id must be an integer" ∧ integer_id poem = None)
  ∨ (m = "id must be between 1 and 100"
     ∧ ∃ z, integer_id poem = Some z ∧ ((z < 1)%Z ∨ (100 < z)%Z)).
Proof.
  unfold check_id, integer_id.
  destruct (get poem "id") as [| | |[z|]| | |];
    try (rewrite list_elem_of_singleton; split;
         [by left|by intros [[? _]|[_ (? & ? & _)]]]).
  destruct (bool_decide (z < 1)%Z) eqn:H1;
    [|destruct (bool_decide (100 < z)%Z) eqn:H2]; simpl.
  - apply bool_decide_eq_true in H1. rewrite list_elem_of_singleton.
    split; [intros ->; right; eauto|by intros [[_ ?]|[? _]]].
  - apply bool_decide_eq_true in H2. rewrite list_elem_of_singleton.
    split; [intros ->; right; eauto|by intros [[_ ?]|[? _]]].
  - apply bool_decide_eq_false in H1, H2. split; [by intros ?%elem_of_nil|].
    intros [[_ ?]|[_ (z' & [= <-] & ?)]]; [done|lia].
Qed.

Lemma check_text_elem (field : string) (poem : jsval) (m : string) :
  m ∈ check_text field poem ↔
  (m = field +:+ " must be a string" ∧ ∀ s, get poem field ≠ JStr s)
  ∨ (m = field +:+ " must be a non-empty string"
     ∧ ∃ s, get poem field = JStr s ∧ Forall (λ c, is_space c = true) s).
Proof.
  unfold check_text.
  destruct (get poem field) as [| | | |s| |];
    try (rewrite list_elem_of_singleton; split;
         [by left|by intros [[? _]|[_ (? & ? & _)]]]).
  case_bool_decide as Hblank; rewrite trim_blank in Hblank.
  - rewrite list_elem_of_singleton.
    split; [intros ->; right; eauto|].
    intros [[_ Hne]|[? _]]; [by destruct (Hne s)|done].
  - split; [by intros ?%elem_of_nil|].
    intros [[_ Hne]|[_ (s' & [= <-] & ?)]]; [by destruct (Hne s)|done].
Qed.

Lemma check_id_nil (poem : jsval) :
  check_id poem = [] ↔ ∃ z, integer_id poem = Some z ∧ (1 ≤ z ≤ 100)%Z.
Proof.
  unfold check_id, integer_id.
  destruct (get poem "id") as [| | |[z|]| | |];
    try (split; [done|by intros (? & ? & _)]).
  destruct (bool_decide (z < 1)%Z) eqn:H1;
    [|destruct (bool_decide (100 < z)%Z) eqn:H2]; simpl.
  - apply bool_decide_eq_true in H1.
    split; [done|]. intros (? & [= <-] & ?). lia.
  - apply bool_decide_eq_true in H2.
    split; [done|]. intros (? & [= <-] & ?). lia.
  - apply bool_decide_eq_false in H1, H2.
    split; [|done]. intros _. exists z. split; [done|lia].
Qed.

Lemma check_text_nil (field : string) (poem : jsval) :
  check_text field poem = [] ↔
  ∃ s, get poem field = JStr s ∧ ¬ Forall (λ c, is_space c = true) s.
Proof.
  unfold check_text.
  destruct (get poem field) as [| | | |s| |];
    try (split; [done|by intros (? & ? & _)]).
  case_bool_decide as Hblank; rewrite trim_blank in Hblank.
  - split; [done|]. by intros (? & [= <-] & ?).
  - split; [|done]. intros _. by exists s.
Qed.

(** X14: [validatePoem] accepts a value exactly when it is an object whose
    [id] is an integer from 1 to 100 and whose [author], [upperVerse] and
    [lowerVerse] are strings holding more than white space; further
    properties of the object do not matter. *)
Theorem validatePoem_accepts_iff (poem : jsval) :
  valid (validatePoem poem) = true ↔
  (∃ props, poem = JObj props)
  ∧ (∃ z, get poem "id" = JNum (Integer z) ∧ (1 ≤ z ≤ 100)%Z)
  ∧ (∀ field, field ∈ ["author"; "upperVerse"; "lowerVerse"] →
       ∃ s, get poem field = JStr s
            ∧ ¬ Forall (λ c, is_space c = true) s).
Proof.
  rewrite validatePoem_valid_iff.
  destruct poem as [| | | | | |props];
    try (split; [done|by intros [[? ?] _]]).
  cbn [validatePoem errors]. rewrite !app_nil, check_id_nil, !check_text_nil.
  split.
  - intros ((z & Hz%integer_id_get & Hr) & Ha & Hu & Hl).
    split_and!; [by eexists|by exists z|].
    intros field Hf. set_unfold in Hf.
    destruct Hf as [->|[->|[->|[]]]]; done.
  - intros (_ & (z & Hz%integer_id_get & Hr) & Htext).
    split_and!; [by exists z|apply Htext..]; set_solver.
Qed.

(** X15: [validatePoem] reports every violated rule of an object, not just
    the first: for each of the four fields, its message is among the errors
    exactly when that field breaks the rule, whatever the other fields
    are. *)
Theorem validatePoem_reports_all (props : list (string * jsval)) :
  let poem := JObj props in
  let errs := errors (validatePoem poem) in
  let blank := Forall (λ c, is_space c = true) in
  ("id must be an integer" ∈ errs ↔ integer_id poem = None)
  ∧ ("id must be between 1 and 100" ∈ errs ↔
     ∃ z, integer_id poem = Some z ∧ ((z < 1)%Z ∨ (100 < z)%Z))
  ∧ ("author must be a string" ∈ errs ↔ ∀ s, get poem "author" ≠ JStr s)
  ∧ ("author must be a non-empty string" ∈ errs ↔
     ∃ s, get poem "author" = JStr s ∧ blank s)
  ∧ ("upperVerse must be a string" ∈ errs ↔
     ∀ s, get poem "upperVerse" ≠ JStr s)
  ∧ ("upperVerse must be a non-empty string" ∈ errs ↔
     ∃ s, get poem "upperVerse" = JStr s ∧ blank s)
  ∧ ("lowerVerse must be a string" ∈ errs ↔
     ∀ s, get poem "lowerVerse" ≠ JStr s)
  ∧ ("lowerVerse must be a non-empty string" ∈ errs ↔
     ∃ s, get poem "lowerVerse" = JStr s ∧ blank s)
  ∧ length errs ≤ 4.
Proof.
  intros poem errs blank. subst errs. cbn [validatePoem errors poem].
  fold poem.
  assert (length (check_id poem) ≤ 1) as Hlid.
  { unfold check_id. destruct (get poem "id") as [| | |[z|]| | |]; simpl;
      try lia. destruct (_ || _); simpl; lia. }
  assert (∀ field, length (check_text field poem) ≤ 1) as Hltext.
  { intros field. unfold check_text.
    destruct (get poem field); simpl; try lia. case_bool_decide; simpl; lia. }
  split_and!;
    [rewrite !elem_of_app, check_id_elem, !check_text_elem;
     split; [intros [H|[H|[H|H]]]; revert H;
             (intros [[Heq ?]|[Heq ?]]; try discriminate Heq; done)
            |intros H]; auto 6..|].
  rewrite !length_app.
  pose proof (Hltext "author"). pose proof (Hltext "upperVerse").
  pose proof (Hltext "lowerVerse"). lia.
Qed.

(** Integer ids are pairwise distinct exactly when the list of them has no
    repetition. *)
Lemma distinct_ids_NoDup (slots : list (option jsval)) :
  (∀ i j p q d, slots !! i = Some p → slots !! j = Some q →
     slot_id p = Some d → slot_id q = Some d → i = j)
  ↔ NoDup (omap slot_id slots).
Proof.
  induction slots as [|p slots IH].
  - simpl. split; [intros _; constructor|done].
  - rewrite omap_slot_id_cons. split.
    + intros Hpair.
      assert (NoDup (omap slot_id slots)) as Hrest.
      { apply IH. intros i j p' q d Hp Hq Hidp Hidq.
        assert (S i = S j) by (by eapply Hpair). lia. }
      destruct (slot_id p) as [z|] eqn:Hz; [|done].
      apply NoDup_cons. split; [|done].
      intros (q & Hq & Hidq)%list_elem_of_omap.
      apply list_elem_of_lookup_1 in Hq as [k Hk].
      assert (0 = S k); [|lia]. by apply (Hpair 0 (S k) p q z).
    + intros Hnd [|i] [|j] p' q d Hp Hq Hidp Hidq; simpl in Hp, Hq.
      * done.
      * injection Hp as <-. rewrite Hidp in Hnd.
        apply NoDup_cons in Hnd as [Hnotin _]. exfalso. apply Hnotin.
        apply list_elem_of_omap. exists q.
        split; [by eapply list_elem_of_lookup_2|done].
      * injection Hq as <-. rewrite Hidq in Hnd.
        apply NoDup_cons in Hnd as [Hnotin _]. exfalso. apply Hnotin.
        apply list_elem_of_omap. exists p'.
        split; [by eapply list_elem_of_lookup_2|done].
      * f_equal. apply (proj2 IH) with p' q d; try done.
        destruct (slot_id p); [by apply NoDup_cons in Hnd as [_ ?]|done].
Qed.

Lemma collection_valid_iff (slots : list (option jsval)) :
  valid (validatePoemCollection (JArr slots)) = true ↔
  length slots = 100
  ∧ Forall (λ slot, slot_valid slot = true) slots
  ∧ NoDup (omap slot_id slots).
Proof.
  rewrite <- distinct_ids_NoDup, <- collection_errors_nil.
  apply collection_valid_errors.
Qed.

(** The elements that are there in valid slots carry integer ids from 1 to
    100; without holes there are as many ids as slots. *)
Lemma valid_elements_ids (slots : list (option jsval)) :
  Forall (λ slot, slot_valid slot = true) slots →
  Forall (λ z, (1 ≤ z ≤ 100)%Z) (omap slot_id slots)
  ∧ (Forall is_Some slots → length (omap slot_id slots) = length slots).
Proof.
  induction 1 as [|slot slots Hp _ [IHall IHlen]]; [done|].
  rewrite omap_slot_id_cons.
  destruct slot as [p|]; simpl.
  - destruct (validatePoem_valid_id p Hp) as (z & Hid & Hz).
    rewrite Hid. split; [by constructor|].
    intros [_ Hdense]%Forall_cons. simpl. by rewrite IHlen.
  - split; [done|]. intros [[? [=]] _]%Forall_cons.
Qed.

Lemma dense_is_Some {A : Type} (l : list A) : Forall is_Some (Some <$> l).
Proof. induction l as [|x l IH]; constructor; [by exists x|done]. Qed.

(** X16: an array without holes that [validatePoemCollection] accepts is
    complete: the ids of its elements are the numbers 1 to 100, each exactly
    once (in some order).  With holes, the ids of the elements that are
    there are still pairwise distinct numbers from 1 to 100, but some are
    missing. *)
Theorem valid_collection_is_complete (input : jsval) :
  valid (validatePoemCollection input) = true →
  ∃ slots, input = JArr slots
           ∧ length slots = 100
           ∧ NoDup (omap slot_id slots)
           ∧ Forall (λ z, (1 ≤ z ≤ 100)%Z) (omap slot_id slots)
           ∧ (Forall is_Some slots →
              omap slot_id slots ≡ₚ seqZ 1 100
              ∧ ∀ z, (1 ≤ z ≤ 100)%Z →
                     ∃ p, Some p ∈ slots ∧ get p "id" = JNum (Integer z)).
Proof.
  intros Hvalid. destruct input as [| | | | |slots|]; try done.
  exists slots. split; [done|].
  apply collection_valid_iff in Hvalid as (Hlen & Hall & Hnd).
  destruct (valid_elements_ids slots Hall) as [Hrange Hlen'].
  split_and!; [done..|]. intros Hdense.
  assert (omap slot_id slots ≡ₚ seqZ 1 100) as Hperm.
  { apply submseteq_length_Permutation.
    - apply NoDup_submseteq; [done|].
      intros z Hz. apply elem_of_seqZ.
      rewrite Forall_forall in Hrange. specialize (Hrange z Hz). lia.
    - rewrite length_seqZ, Hlen', Hlen; done. }
  split; [done|].
  intros z Hz.
  assert (z ∈ omap slot_id slots) as Hin
    by (rewrite Hperm; apply elem_of_seqZ; lia).
  apply list_elem_of_omap in Hin as ([p|] & Hp & Hid); [|done].
  exists p. split; [done|]. by apply integer_id_get.
Qed.

Lemma valid_collection_is_complete_witness :
  valid (validatePoemCollection full_collection) = true
  ∧ ∃ slots, full_collection = JArr slots
             ∧ omap slot_id slots ≡ₚ seqZ 1 100
             ∧ ∃ p, Some p ∈ slots ∧ get p "id" = JNum (Integer 42).
Proof.
  assert (valid (validatePoemCollection full_collection) = true) as Hvalid
    by (by vm_compute).
  split; [exact Hvalid|].
  destruct (valid_collection_is_complete full_collection Hvalid)
    as (slots & Heq & _ & _ & _ & Hdense).
  exists slots. split; [exact Heq|].
  destruct Hdense as [Hperm Hall].
  { assert (slots = Some <$> (sample_json <$> (Z.of_nat <$> seq 1 100)))
      as -> by (by injection Heq).
    apply dense_is_Some. }
  split; [exact Hperm|]. apply Hall. lia.
Defined.

(** X17: the verdict of [validatePoemCollection] does not depend on the
    order of the elements: a reordering of an accepted array is accepted,
    and a reordering of a rejected array is rejected. *)
Theorem validatePoemCollection_order_irrelevant
    (elems elems' : list (option jsval)) :
  elems ≡ₚ elems' →
  valid (validatePoemCollection (JArr elems))
  = valid (validatePoemCollection (JArr elems')).
Proof.
  intros Hperm.
  assert (∀ l l', l ≡ₚ l' →
            valid (validatePoemCollection (JArr l)) = true →
            valid (validatePoemCollection (JArr l')) = true) as Hone.
  { intros l l' Hp (Hlen & Hall & Hnd)%collection_valid_iff.
    apply collection_valid_iff. split_and!.
    - by rewrite <- Hp.
    - by rewrite <- Hp.
    - by rewrite <- Hp. }
  destruct (valid (validatePoemCollection (JArr elems))) eqn:H1;
    destruct (valid (validatePoemCollection (JArr elems'))) eqn:H2;
    try done.
  - by rewrite (Hone _ _ Hperm H1) in H2.
  - symmetry in Hperm. by rewrite (Hone _ _ Hperm H2) in H1.
Qed.

Lemma validatePoemCollection_order_irrelevant_witness :
  valid (validatePoemCollection
           (JArr (reverse (Some <$> (sample_json <$> (Z.of_nat <$> seq 1 100))))))
  = true.
Proof.
  rewrite <- (validatePoemCollection_order_irrelevant
                (Some <$> (sample_json <$> (Z.of_nat <$> seq 1 100))));
    [by vm_compute|].
  symmetry. apply reverse_Permutation.
Defined.

(** The errors the loop adds, in closed form. *)
Lemma forEach_scan_errors (elems : list (option jsval)) (index : nat)
    (st : scan) :
  scan_errors (forEach elems index st)
  = scan_errors st
    ++ mjoin (imap (λ i slot, slot_errors (index + i) slot) elems).
Proof.
  revert index st. induction elems as [|p elems IH]; intros index st.
  - simpl. by rewrite app_nil_r.
  - rewrite imap_cons, forEach_cons. simpl. rewrite IH.
    destruct (visit_slot_spec index p st) as (-> & _).
    rewrite <- app_assoc, Nat.add_0_r. do 3 f_equal.
    apply imap_ext. intros i x _. simpl. by rewrite Nat.add_succ_r.
Qed.

(** The ids the loop records do not depend on the errors collected. *)
Lemma forEach_ids_only (elems : list (option jsval)) (index index' : nat)
    (st st' : scan) :
  idSet st = idSet st' → duplicateIds st = duplicateIds st' →
  idSet (forEach elems index st) = idSet (forEach elems index' st')
  ∧ duplicateIds (forEach elems index st)
    = duplicateIds (forEach elems index' st').
Proof.
  revert index index' st st'.
  induction elems as [|p elems IH]; intros index index' st st' Hset Hdup;
    [done|].
  rewrite !forEach_cons. apply IH.
  - destruct (visit_slot_spec index p st) as (_ & -> & _).
    destruct (visit_slot_spec index' p st') as (_ & -> & _). by rewrite Hset.
  - destruct (visit_slot_spec index p st) as (_ & _ & ->).
    destruct (visit_slot_spec index' p st') as (_ & _ & ->).
    by rewrite Hset, Hdup.
Qed.

(** X18: the error list of [validatePoemCollection] on an array has a fixed
    layout: first the message about the count (if the array has not the
    length 100), then the errors of the invalid elements in the order of the
    array, each behind its index (a hole adds none), and last the one
    message about duplicate ids (if an integer id occurs twice), which names
    them as [Number::toString] prints them. *)
Theorem validatePoemCollection_layout (elems : list (option jsval)) :
  errors (validatePoemCollection (JArr elems))
  = (if bool_decide (length elems = 100) then []
     else ["Poem collection must contain exactly 100 poems, but got "
           +:+ pretty (length elems)])
    ++ mjoin (imap (λ i slot,
                 (λ err, "Poem at index " +:+ pretty i +:+ ": " +:+ err)
                 <$> (match slot with
                      | Some p => if valid (validatePoem p) then []
                                  else errors (validatePoem p)
                      | None => []
                      end)) elems)
    ++ (if bool_decide (NoDup (omap slot_id elems)) then []
        else ["Duplicate poem IDs found: "
              +:+ String.concat ", "
                    (Number_toString <$> duplicates_found elems)]).
Proof.
  unfold validatePoemCollection. cbn [errors].
  set (errors0 := if bool_decide (length elems ≠ 100) then _ else _).
  set (st0 := {| scan_errors := errors0; idSet := ∅; duplicateIds := [] |}).
  assert (errors0 = if bool_decide (length elems = 100) then []
                    else ["Poem collection must contain exactly 100 poems, but got "
                          +:+ pretty (length elems)]) as Hcount.
  { unfold errors0. by repeat case_bool_decide. }
  assert (duplicateIds (forEach elems 0 st0) = duplicates_found elems)
    as Hdups by (unfold duplicates_found; by apply forEach_ids_only).
  pose proof (forEach_duplicateIds_nil elems 0 st0) as Hnil.
  rewrite Hdups in *.
  assert (duplicates_found elems = [] ↔ NoDup (omap slot_id elems))
    as Hnodup.
  { rewrite Hnil, <- distinct_ids_NoDup. simpl.
    split; [by intros (_ & ? & _)|]. intros Hpair.
    split_and!; [done|done|]. intros p d _ _. set_solver. }
  rewrite forEach_scan_errors. cbn [scan_errors st0]. rewrite <- Hcount.
  assert (imap (λ i slot, slot_errors (0 + i) slot) elems
          = imap (λ i slot,
                    (λ err, "Poem at index " +:+ pretty i +:+ ": " +:+ err)
                    <$> (match slot with
                         | Some p => if valid (validatePoem p) then []
                                     else errors (validatePoem p)
                         | None => []
                         end)) elems) as ->.
  { apply imap_ext. intros i [p|] _; [|done]. simpl.
    by destruct (valid (validatePoem p)). }
  unfold join_ids.
  destruct (decide (NoDup (omap slot_id elems))) as [Hnd|Hnd].
  - rewrite (bool_decide_eq_true_2 (NoDup _)) by done.
    apply Hnodup in Hnd. rewrite Hnd. simpl. by rewrite !app_nil_r.
  - rewrite (bool_decide_eq_false_2 (NoDup _)) by done.
    rewrite bool_decide_eq_true_2; [by rewrite <- app_assoc|].
    destruct (duplicates_found elems); [|simpl; lia].
    exfalso. by apply Hnd, Hnodup.
Qed.

Lemma forEach_ids_account (elems : list (option jsval)) (index : nat)
    (st : scan) :
  idSet (forEach elems index st)
  = list_to_set (omap slot_id elems) ∪ idSet st
  ∧ length (duplicateIds (forEach elems index st))
    + size (idSet (forEach elems index st))
    = length (duplicateIds st) + size (idSet st)
      + length (omap slot_id elems).
Proof.
  revert index st. induction elems as [|p elems IH]; intros index st.
  - simpl. split; [set_solver|lia].
  - rewrite forEach_cons.
    destruct (IH (S index) (visit_slot index p st)) as [-> ->].
    destruct (visit_slot_spec index p st) as (_ & -> & ->).
    rewrite omap_slot_id_cons.
    destruct (slot_id p) as [z|]; [|done].
    rewrite list_to_set_cons. split; [set_solver|].
    case_bool_decide as Hseen.
    + rewrite length_app. simpl.
      replace ({[z]} ∪ idSet st) with (idSet st) by set_solver. lia.
    + rewrite size_union by set_solver. rewrite size_singleton. simpl. lia.
Qed.

Lemma forEach_duplicate_origin (elems : list (option jsval)) (index : nat)
    (st : scan) (d : Z) :
  d ∈ duplicateIds (forEach elems index st) →
  d ∈ duplicateIds st
  ∨ (d ∈ idSet st ∧ d ∈ omap slot_id elems)
  ∨ ∃ i j p q, i < j ∧ elems !! i = Some p ∧ elems !! j = Some q
               ∧ slot_id p = Some d ∧ slot_id q = Some d.
Proof.
  revert index st. induction elems as [|p elems IH]; intros index st Hd.
  - by left.
  - rewrite forEach_cons in Hd. apply IH in Hd.
    destruct (visit_slot_spec index p st) as (_ & Hset & Hdup).
    rewrite Hset, Hdup in Hd. clear Hset Hdup.
    rewrite omap_slot_id_cons.
    destruct Hd as [Hd|[[Hseen Hin]|(i & j & p' & q & Hlt & Hp & Hq & Hidp & Hidq)]].
    + destruct (slot_id p) as [z|] eqn:Hz; [|by left].
      case_bool_decide as Hseen; [|by left].
      apply elem_of_app in Hd as [Hd|Hd]; [by left|].
      apply list_elem_of_singleton in Hd as ->.
      right; left. split; [done|left].
    + destruct (slot_id p) as [z|] eqn:Hz.
      * apply elem_of_union in Hseen as [Hz'|Hseen].
        -- apply elem_of_singleton in Hz' as ->.
           apply list_elem_of_omap in Hin as (q & Hq & Hidq).
           apply list_elem_of_lookup_1 in Hq as [k Hk].
           right; right. exists 0, (S k), p, q.
           split_and!; [lia|done..].
        -- right; left. split; [done|by right].
      * right; left. by split.
    + right; right. exists (S i), (S j), p', q.
      split_and!; [lia|done..].
Qed.

(** X19: the ids named in the duplicate message are those that occur on two
    elements of the array, and each is named once per extra occurrence: the
    number of ids named is the number of elements with an integer id minus
    the number of distinct integer ids. *)
Theorem duplicates_found_spec (elems : list (option jsval)) :
  (∀ d, d ∈ duplicates_found elems ↔
        ∃ i j p q, i < j ∧ elems !! i = Some (Some p)
                   ∧ elems !! j = Some (Some q)
                   ∧ get p "id" = JNum (Integer d)
                   ∧ get q "id" = JNum (Integer d))
  ∧ length (duplicates_found elems)
    = length (omap slot_id elems)
      - size (list_to_set (omap slot_id elems) : gset Z).
Proof.
  unfold duplicates_found.
  set (st0 := {| scan_errors := []; idSet := ∅; duplicateIds := [] |}).
  split.
  - intros d. split.
    + intros Hd. apply forEach_duplicate_origin in Hd
        as [Hd|[[Hd _]|(i & j & p & q & Hlt & Hp & Hq & Hidp & Hidq)]].
      * by apply elem_of_nil in Hd.
      * set_solver.
      * destruct p as [p|]; [|done]. destruct q as [q|]; [|done].
        exists i, j, p, q. rewrite <- !integer_id_get. done.
    + intros (i & j & p & q & Hlt & Hp & Hq & Hidp & Hidq).
      apply (forEach_pair_duplicate elems 0 st0 i j (Some p) (Some q));
        try done; by apply integer_id_get.
  - destruct (forEach_ids_account elems 0 st0) as [Hset Hsum].
    rewrite Hset in Hsum. cbn [st0 idSet duplicateIds length] in Hsum.
    rewrite (right_id_L ∅ (∪)) in Hsum.
    change (size (∅ : gset Z)) with 0 in Hsum. lia.
Qed.

(** * Properties of the controller *)

Lemma opening_inv (poems : list Poem) (g : rng)
    (left_over : list App.continuation) (s : App.session) :
  App.opening poems g left_over = Some s →
  app_counts_inv poems s
  ∧ start poems g = Some (App.gameEngine (App.app s))
  ∧ ScoreManager._incorrect (App.scoreManager (App.app s)) = 0%Z
  ∧ App.isProcessing (App.app s) = false
  ∧ App.pending s = left_over.
Proof.
  unfold App.opening, App.startGame_then.
  destruct (new_GameEngine poems) as [e0|] eqn:He0; [|done]. simpl.
  rewrite bool_decide_eq_false_2 by lia. simpl.
  assert (start poems g = Some (initGame e0 g).1.2) as Hstart
    by (unfold start; by rewrite He0).
  destruct (initGame e0 g) as [[st e] g'] eqn:Hinit. simpl in *.
  intros [= <-]. simpl.
  destruct (start_inv _ _ _ Hstart) as (Hinv & Hpool & Hr & Hs & Hi & Ho).
  unfold app_counts_inv. simpl.
  split_and!; try done. by rewrite Hs.
Qed.

(** A session opened with nothing left over. *)
Lemma opening_clean_inv (poems : list Poem) (g : rng) (s : App.session) :
  App.opening poems g [] = Some s →
  app_inv poems s ∧ app_field_inv s.
Proof.
  intros Hopen.
  destruct (opening_inv _ _ _ _ Hopen)
    as ((Hinv & Ht & Hc) & Hstart & _ & Hfree & Hpend).
  destruct (start_inv _ _ _ Hstart) as (_ & Hpool & Hr & Hs & Hi & Ho).
  unfold app_inv, app_field_inv. rewrite Hpend. cbv zeta.
  split_and!; try done.
  - by rewrite Hs, Hpool, (inv_order _ _ Hinv).
  - congruence.
  - rewrite Ho, Hr, (inv_total _ _ Hinv). split; [done|].
    intros Hnil. symmetry in Hnil. apply length_zero_iff_nil in Hnil.
    by destruct (inv_nonempty _ _ Hinv).
Qed.

Lemma selectCard_miss_score (cardId : Z) (e : GameEngine) :
  correct (selectCard cardId e).1 = false →
  _score (selectCard cardId e).2 = _score e.
Proof.
  unfold selectCard. destruct (_gameOver e); [done|].
  destruct (getCurrentReadingCard e); [|done].
  by case_bool_decide.
Qed.

(** Whatever is waiting, the engine stays in a reachable state and the
    score manager keeps the score. *)
Lemma deliver_counts_inv (poems : list Poem) (ev : App.event)
    (s : App.session) :
  app_counts_inv poems s → app_counts_inv poems (App.deliver ev s).
Proof.
  intros (Hinv & Ht & Hc). destruct s as [[e sm busy] pend].
  unfold app_counts_inv in *. simpl in *.
  destruct ev as [cardId|]; simpl.
  - unfold App.handleCardClick. simpl.
    destruct busy; [by split_and!|].
    pose proof (selectCard_inv poems cardId e Hinv) as Hinv'.
    destruct (selectCard cardId e) as [r e'] eqn:Hsel.
    assert (e' = (selectCard cardId e).2) as He' by by rewrite Hsel.
    assert (r = (selectCard cardId e).1) as Hr by by rewrite Hsel.
    destruct (correct r) eqn:Hcorrect; simpl in *.
    + rewrite Hr in Hcorrect.
      destruct (selectCard_correct_inv _ _ Hcorrect)
        as (prompt & Hover & Hprompt & ->).
      rewrite (selectCard_hit _ _ Hover Hprompt) in He'. subst e'. simpl.
      split_and!; try done. lia.
    + split_and!; try done.
      rewrite Hc. f_equal. subst e' r. symmetry.
      by apply selectCard_miss_score.
  - destruct pend as [|k pend]; [by split_and!|].
    destruct k; simpl; [|done].
    pose proof (nextRound_inv poems e Hinv) as Hinv'.
    destruct (nextRound_counts e) as [Hs _].
    unfold App.advanceToNextRound. simpl.
    destruct (nextRound e) as [continues e'] eqn:Hnext. simpl in *.
    split_and!; try done. by rewrite Hs.
Qed.

Lemma play_counts_inv (poems : list Poem) (evs : list App.event)
    (s : App.session) :
  app_counts_inv poems s → app_counts_inv poems (App.play evs s).
Proof.
  revert s. induction evs as [|ev evs IH]; intros s Hinv; [done|].
  simpl. by apply IH, deliver_counts_inv.
Qed.

Lemma deliver_inv (poems : list Poem) (ev : App.event) (s : App.session) :
  app_inv poems s → app_inv poems (App.deliver ev s).
Proof.
  intros (Hinv & Ht & Hc & Hp). destruct s as [[e sm busy] pend].
  unfold app_inv in *. simpl in *.
  destruct ev as [cardId|]; simpl.
  - unfold App.handleCardClick. simpl.
    destruct busy.
    { simpl. rewrite app_nil_r. by split_and!. }
    destruct pend as [|k pend];
      [|destruct k, pend; (done || by destruct Hp)].
    pose proof (selectCard_inv poems cardId e Hinv) as Hinv'.
    destruct (selectCard cardId e) as [r e'] eqn:Hsel.
    assert (e' = (selectCard cardId e).2) as He' by by rewrite Hsel.
    assert (r = (selectCard cardId e).1) as Hr by by rewrite Hsel.
    destruct (correct r) eqn:Hcorrect; simpl in *.
    + rewrite Hr in Hcorrect.
      destruct (selectCard_correct_inv _ _ Hcorrect)
        as (prompt & Hover & Hprompt & ->).
      rewrite (selectCard_hit _ _ Hover Hprompt) in He'. subst e'. simpl.
      split_and!; try done. lia.
    + split_and!; try done.
      rewrite Hc. f_equal. subst e' r. symmetry.
      by apply selectCard_miss_score.
  - destruct pend as [|k pend]; [by split_and!|].
    destruct pend as [|??]; [|by destruct k].
    destruct k; simpl.
    + destruct Hp as [_ Hlive].
      pose proof (nextRound_inv poems e Hinv) as Hinv'.
      destruct (nextRound_counts e) as [Hs _].
      unfold App.advanceToNextRound. simpl.
      destruct (nextRound e) as [continues e'] eqn:Hnext. simpl in *.
      split_and!; try done. by rewrite Hs.
    + done.
Qed.

Lemma play_inv (poems : list Poem) (evs : list App.event) (s : App.session) :
  app_inv poems s → app_inv poems (App.play evs s).
Proof.
  revert s. induction evs as [|ev evs IH]; intros s Hinv; [done|].
  simpl. by apply IH, deliver_inv.
Qed.

(** X20: the flag [isProcessing] is a lock that works within a game that
    began with no feedback of an earlier game still running: in every such
    session at most one feedback continuation is waiting, one is waiting
    exactly while the flag is set, and a click that arrives while it is set
    changes nothing at all. *)
Theorem isProcessing_locks (poems : list Poem) (g : rng)
    (evs : list App.event) (s0 : App.session) :
  App.opening poems g [] = Some s0 →
  let s := App.play evs s0 in
  length (App.pending s) ≤ 1
  ∧ (App.isProcessing (App.app s) = true ↔ App.pending s ≠ [])
  ∧ (App.isProcessing (App.app s) = true →
     ∀ cardId, App.deliver (App.Click cardId) s = s).
Proof.
  intros Hopen s.
  destruct (opening_clean_inv _ _ _ Hopen) as (Hinv0 & _).
  pose proof (play_inv poems evs s0 Hinv0) as (_ & _ & _ & Hp). fold s in Hp.
  split_and!.
  - destruct (App.pending s) as [|k [|??]]; simpl; try lia. by destruct k.
  - destruct (App.pending s) as [|k [|??]]; [|destruct k..].
    + rewrite Hp. split; done.
    + destruct Hp as [-> _]. split; done.
    + rewrite Hp. split; done.
    + done.
    + done.
  - intros Hbusy cardId. destruct s as [a pend]. simpl in *.
    unfold App.handleCardClick. rewrite Hbusy. simpl. by rewrite app_nil_r.
Qed.

Lemma isProcessing_locks_witness :
  let s := App.play [App.Click 2; App.Click 2; App.Click 1] sample_session in
  App.opening sample_poems sample_rng [] = Some sample_session
  ∧ App.pending s = [App.AdvanceToNextRound]
  ∧ _score (App.gameEngine (App.app s)) = 1
  ∧ App.deliver (App.Click 3) s = s.
Proof.
  intros s.
  destruct (isProcessing_locks sample_poems sample_rng
              [App.Click 2; App.Click 2; App.Click 1] sample_session eq_refl)
    as (_ & _ & Hlock).
  split_and!; [reflexivity|reflexivity|reflexivity|].
  apply Hlock. reflexivity.
Defined.

(** X26: [startGame] does not wait for a running feedback.  When it
    completes while the advance after a right card is still waiting, the new
    game starts with [isProcessing] off and that advance pending: the player
    can click at once, two continuations are then waiting together, and the
    left-over advance skips a round of the new game, which then ends with a
    card still on the field and a score below the number of poems. *)
Theorem left_over_feedback_breaks_the_lock :
  ∃ s0, App.opening sample_poems sample_rng [App.AdvanceToNextRound] = Some s0
    ∧ App.isProcessing (App.app s0) = false
    ∧ length (App.pending (App.play [App.Click 2] s0)) = 2
    ∧ let s := App.play [App.Settle; App.Click 3; App.Settle; App.Click 1;
                         App.Settle] s0 in
      let e := App.gameEngine (App.app s) in
      isGameOver e = true
      ∧ id <$> _remainingCards e = [2%Z]
      ∧ _score e = 2
      ∧ length sample_poems = 3.
Proof. eexists. split; [reflexivity|]. by vm_compute. Qed.

Lemma deliver_over (ev : App.event) (s : App.session) :
  _gameOver (App.gameEngine (App.app (App.deliver ev s))) = false →
  _gameOver (App.gameEngine (App.app s)) = false.
Proof.
  destruct (_gameOver (App.gameEngine (App.app s))) eqn:Hover; [|done].
  destruct s as [[e sm busy] pend]. simpl in *.
  destruct ev as [cardId|]; simpl.
  - unfold App.handleCardClick. simpl. destruct busy; simpl; [congruence|].
    rewrite (selectCard_over cardId e Hover). simpl. congruence.
  - destruct pend as [|[|] pend]; simpl; try congruence.
    unfold App.advanceToNextRound. simpl.
    rewrite (nextRound_over e Hover). simpl. congruence.
Qed.

Lemma play_over (evs : list App.event) (s : App.session) :
  _gameOver (App.gameEngine (App.app (App.play evs s))) = false →
  _gameOver (App.gameEngine (App.app s)) = false.
Proof.
  revert s. induction evs as [|ev evs IH]; intros s Hlive; [done|].
  simpl in Hlive. by apply (deliver_over ev), IH.
Qed.

Lemma live_play_no_late_clicks (evs : list App.event) (s : App.session) :
  _gameOver (App.gameEngine (App.app (App.play evs s))) = false →
  App.late_clicks evs s = 0.
Proof.
  revert s. induction evs as [|ev evs IH]; intros s Hlive; [done|].
  simpl in *. rewrite (IH _ Hlive).
  apply play_over, deliver_over in Hlive. rewrite Hlive.
  destruct ev; [by destruct (App.isProcessing _)|done].
Qed.

Lemma deliver_incorrect (poems : list Poem) (ev : App.event)
    (s : App.session) :
  app_counts_inv poems s →
  let wrong s := ScoreManager._incorrect (App.scoreManager (App.app s)) in
  let missed s := Z.of_nat (_incorrectCount (App.gameEngine (App.app s))) in
  (wrong (App.deliver ev s) - missed (App.deliver ev s)
   = wrong s - missed s + Z.of_nat (App.late_clicks [ev] s))%Z.
Proof.
  intros (Hinv & _ & _). destruct s as [[e sm busy] pend].
  simpl in *. destruct ev as [cardId|]; simpl.
  - unfold App.handleCardClick. simpl.
    destruct busy; simpl; [lia|].
    destruct (_gameOver e) eqn:Hover.
    + rewrite (selectCard_over cardId e Hover). simpl. lia.
    + destruct (live_prompt _ _ Hinv Hover) as (prompt & Hprompt & _).
      unfold selectCard. rewrite Hover, Hprompt.
      case_bool_decide; simpl; lia.
  - destruct pend as [|[|] pend]; simpl; try lia.
    unfold App.advanceToNextRound. simpl.
    destruct (nextRound_counts e) as [_ Hi].
    destruct (nextRound e) as [continues e']. simpl in *. lia.
Qed.

(** X21: the controller keeps the score manager in step with the engine:
    in every session, whatever feedback of an earlier game is left over,
    the manager's [correct] is the engine's score and its total is the
    number of poems; its [incorrect] is the engine's [incorrectCount] plus
    the clicks handled after the game was over, which the manager counts as
    wrong and the engine ignores, so the two agree as long as the game is
    not over. *)
Theorem scoreManager_follows_engine (poems : list Poem) (g : rng)
    (left_over : list App.continuation)
    (evs : list App.event) (s0 : App.session) :
  App.opening poems g left_over = Some s0 →
  let s := App.play evs s0 in
  let e := App.gameEngine (App.app s) in
  let sm := App.scoreManager (App.app s) in
  ScoreManager._totalCards sm = Z.of_nat (length poems)
  ∧ ScoreManager._correct sm = Z.of_nat (_score e)
  ∧ ScoreManager._incorrect sm
    = (Z.of_nat (_incorrectCount e) + Z.of_nat (App.late_clicks evs s0))%Z
  ∧ (isGameOver e = false →
     ScoreManager._incorrect sm = Z.of_nat (_incorrectCount e)).
Proof.
  intros Hopen s e sm.
  destruct (opening_inv _ _ _ _ Hopen) as (Hinv0 & Hstart & Hwrong & _).
  destruct (start_inv _ _ _ Hstart) as (_ & _ & _ & _ & Hmissed & _).
  pose proof (play_counts_inv poems evs s0 Hinv0) as (_ & Ht & Hc).
  assert (∀ evs s, app_counts_inv poems s →
            (ScoreManager._incorrect (App.scoreManager (App.app (App.play evs s)))
             - Z.of_nat (_incorrectCount (App.gameEngine (App.app (App.play evs s))))
             = ScoreManager._incorrect (App.scoreManager (App.app s))
               - Z.of_nat (_incorrectCount (App.gameEngine (App.app s)))
               + Z.of_nat (App.late_clicks evs s))%Z) as Hgen.
  { clear. induction evs as [|ev evs IH]; intros s Hinv; simpl; [lia|].
    rewrite IH by by apply deliver_counts_inv.
    pose proof (deliver_incorrect poems ev s Hinv) as Hstep.
    simpl in Hstep. lia. }
  specialize (Hgen evs s0 Hinv0). rewrite Hwrong, Hmissed in Hgen.
  fold s in Hgen, Ht, Hc. fold e sm in Hgen, Ht, Hc.
  split_and!; [done|done|lia|].
  intros Hlive. unfold isGameOver in Hlive.
  rewrite (live_play_no_late_clicks evs s0 Hlive) in Hgen. lia.
Qed.

Lemma scoreManager_follows_engine_witness :
  let evs := [App.Click 2; App.Settle; App.Click 1; App.Settle;
              App.Click 3; App.Settle; App.Click 1; App.Settle;
              App.Click 1] in
  let s := App.play evs sample_session in
  App.late_clicks evs sample_session = 1
  ∧ _incorrectCount (App.gameEngine (App.app s)) = 1
  ∧ ScoreManager._incorrect (App.scoreManager (App.app s)) = 2%Z
  ∧ ScoreManager._correct (App.scoreManager (App.app s)) = 3%Z.
Proof.
  intros evs s.
  destruct (scoreManager_follows_engine sample_poems sample_rng [] evs
              sample_session eq_refl) as (_ & Hc & Hi & _).
  split_and!; [reflexivity|reflexivity|exact Hi|exact Hc].
Defined.

Lemma drop_prompt_rest (order : list Poem) (k : nat) (prompt : Poem) :
  NoDup (id <$> order) → order !! k = Some prompt →
  filter (λ card, id card ≠ id prompt) (drop k order) = drop (S k) order.
Proof.
  intros Hnd Hk. rewrite (drop_S _ _ _ Hk).
  rewrite filter_cons_False by (intros Hne; by apply Hne).
  apply filter_all. intros card Hcard Heq.
  assert (NoDup (id <$> drop k order)) as Hnd'.
  { rewrite fmap_drop. eapply sublist_NoDup; [exact Hnd|apply sublist_drop]. }
  rewrite (drop_S _ _ _ Hk), fmap_cons in Hnd'.
  apply NoDup_cons in Hnd' as [Hnotin _]. apply Hnotin.
  rewrite <- Heq. by apply list_elem_of_fmap_2.
Qed.

Lemma deliver_field_inv (poems : list Poem) (ev : App.event)
    (s : App.session) :
  NoDup (id <$> poems) → app_inv poems s → app_field_inv s →
  app_field_inv (App.deliver ev s).
Proof.
  intros Hnd (Hinv & _ & _ & Hp) (Hpool & Hshape).
  destruct s as [[e sm busy] pend]. unfold app_field_inv in *. simpl in *.
  assert (NoDup (id <$> _readingOrder e)) as Hndo
    by by rewrite (inv_order _ _ Hinv).
  assert (length (_readingOrder e) = _totalRounds e) as Hlen
    by by rewrite (inv_order _ _ Hinv), (inv_total _ _ Hinv).
  destruct ev as [cardId|]; simpl.
  - unfold App.handleCardClick. simpl.
    destruct busy; simpl; [by rewrite app_nil_r|].
    destruct pend as [|k pend];
      [|destruct k, pend; (done || by destruct Hp)].
    destruct Hshape as [Hscore Hend]. simpl.
    destruct (_gameOver e) eqn:Hover.
    { rewrite (selectCard_over cardId e Hover). simpl. by rewrite Hover. }
    rewrite <- Hover in Hend.
    destruct (live_prompt _ _ Hinv Hover) as (prompt & Hprompt & Hk & _).
    destruct (decide (cardId = id prompt)) as [->|Hne].
    + rewrite (selectCard_hit _ _ Hover Hprompt). simpl.
      split; [|lia].
      rewrite Hpool, Hscore, Nat.add_1_r.
      by rewrite (drop_prompt_rest _ _ _ Hndo Hk).
    + unfold selectCard. rewrite Hover, Hprompt.
      rewrite bool_decide_eq_false_2 by done. simpl.
      rewrite Hover in Hend. by split_and!.
  - destruct pend as [|k pend]; [done|].
    destruct pend as [|??]; [|by destruct k].
    destruct k; simpl; [|done].
    destruct Hp as [_ Hover].
    pose proof (inv_live _ _ Hinv Hover) as Hlt.
    unfold App.advanceToNextRound, nextRound. cbn [App.gameEngine].
    rewrite Hover. simpl.
    assert (length (_remainingCards e) = _totalRounds e - _score e) as Hcards
      by by rewrite Hpool, length_drop, Hlen.
    destruct (decide (_currentRound e + 1 = _totalRounds e)) as [Hlast|Hmore].
    + rewrite bool_decide_eq_true_2 by lia. simpl. by split_and!.
    + rewrite !bool_decide_eq_false_2 by lia. simpl. by split_and!.
Qed.

Lemma play_field_inv (poems : list Poem) (evs : list App.event)
    (s : App.session) :
  NoDup (id <$> poems) → app_inv poems s → app_field_inv s →
  app_field_inv (App.play evs s).
Proof.
  intros Hnd. revert s.
  induction evs as [|ev evs IH]; intros s Hinv Hfield; [done|].
  simpl. apply IH; [by apply deliver_inv|by apply (deliver_field_inv poems)].
Qed.

Lemma field_facts (poems : list Poem) (g : rng)
    (evs : list App.event) (s0 : App.session) :
  NoDup (id <$> poems) →
  (Z.of_nat (length poems) < 2 ^ 32)%Z →
  App.opening poems g [] = Some s0 →
  let s := App.play evs s0 in
  let e := App.gameEngine (App.app s) in
  _remainingCards e ≡ₚ drop (_score e) (_readingOrder e)
  ∧ _score e ≤ length poems
  ∧ length (_remainingCards e) = length poems - _score e
  ∧ ScoreManager.remaining (App.scoreManager (App.app s))
    = Z.of_nat (ScoreData.remaining (getScoreData e)).
Proof.
  intros Hnd Harray Hopen s e.
  destruct (opening_clean_inv _ _ _ Hopen) as (Hinv0 & Hfield0).
  pose proof (play_inv poems evs s0 Hinv0) as Happ.
  pose proof (play_field_inv poems evs s0 Hnd Hinv0 Hfield0) as [Hpool Hshape].
  destruct Happ as (Hinv & Ht & Hc & Hp).
  fold s in Hpool, Hshape, Hinv, Ht, Hc, Hp. fold e in Hpool, Hshape, Hinv, Hc.
  assert (length (_readingOrder e) = length poems) as Hlen
    by by rewrite (inv_order _ _ Hinv).
  assert (_score e ≤ length poems) as Hle.
  { pose proof (inv_round _ _ Hinv) as Hr.
    rewrite (inv_total _ _ Hinv) in Hr.
    destruct (App.pending s) as [|[|] [|??]]; try (destruct Hshape; lia).
    destruct Hp as [_ Hover]. pose proof (inv_live _ _ Hinv Hover) as Hlt.
    rewrite (inv_total _ _ Hinv) in Hlt. lia. }
  assert (length (_remainingCards e) = length poems - _score e) as Hcards
    by by rewrite Hpool, length_drop, Hlen.
  split_and!; try done.
  unfold ScoreManager.remaining. rewrite Ht, Hc.
  rewrite Number_sub_safe by lia. simpl. lia.
Qed.

(** X22: in a game on poems with pairwise distinct ids (an array, so fewer
    than 2^32 of them) that began with no feedback of an earlier game still
    running, the cards on the field are at every moment, up to order, the
    poems of the reading order not yet read with success; so the score never
    exceeds the number of poems, the field holds [totalRounds - score]
    cards, and the [remaining] shown by the score manager is the number of
    cards on the field.  (The lock excludes the double counting of C10.) *)
Theorem field_matches_score (poems : list Poem) (g : rng)
    (evs : list App.event) (s0 : App.session) :
  NoDup (id <$> poems) →
  (Z.of_nat (length poems) < 2 ^ 32)%Z →
  App.opening poems g [] = Some s0 →
  let s := App.play evs s0 in
  let e := App.gameEngine (App.app s) in
  _remainingCards e ≡ₚ drop (_score e) (_readingOrder e)
  ∧ _score e ≤ length poems
  ∧ length (_remainingCards e) = length poems - _score e
  ∧ ScoreManager.remaining (App.scoreManager (App.app s))
    = Z.of_nat (ScoreData.remaining (getScoreData e)).
Proof. apply field_facts. Qed.

Lemma field_matches_score_witness :
  let s := App.play [App.Click 2; App.Click 2; App.Settle; App.Click 1;
                     App.Settle; App.Click 3] sample_session in
  App.opening sample_poems sample_rng [] = Some sample_session
  ∧ _score (App.gameEngine (App.app s)) = 2
  ∧ length (_remainingCards (App.gameEngine (App.app s))) = 1
  ∧ ScoreManager.remaining (App.scoreManager (App.app s)) = 1%Z.
Proof.
  intros s.
  assert (NoDup (id <$> sample_poems)) as Hnd
    by (by apply (bool_decide_unpack _)).
  assert (Z.of_nat (length sample_poems) < 2 ^ 32)%Z as Harray
    by (by vm_compute).
  destruct (field_matches_score sample_poems sample_rng
              [App.Click 2; App.Click 2; App.Settle; App.Click 1;
               App.Settle; App.Click 3] sample_session Hnd Harray eq_refl)
    as (_ & _ & Hcards & Hremaining).
  split_and!; [reflexivity|reflexivity|exact Hcards|].
  etrans; [exact Hremaining|reflexivity].
Defined.

(** X23: in a game on poems with pairwise distinct ids (an array, so fewer
    than 2^32 of them) that began with no feedback of an earlier game still
    running, the game is over only when every card has been taken: then the
    field is empty, the score is the number of poems, the round index is
    [totalRounds] and the score manager shows no card remaining.  The two
    ends that [nextRound] tests, rounds used up and pool empty, come
    together. *)
Theorem game_over_means_all_taken (poems : list Poem) (g : rng)
    (evs : list App.event) (s0 : App.session) :
  NoDup (id <$> poems) →
  (Z.of_nat (length poems) < 2 ^ 32)%Z →
  App.opening poems g [] = Some s0 →
  let s := App.play evs s0 in
  let e := App.gameEngine (App.app s) in
  (isGameOver e = true →
   _remainingCards e = [] ∧ _score e = length poems
   ∧ _currentRound e = _totalRounds e
   ∧ ScoreManager.remaining (App.scoreManager (App.app s)) = 0%Z)
  ∧ (App.isProcessing (App.app s) = false →
     (isGameOver e = true ↔ _remainingCards e = [])).
Proof.
  intros Hnd Harray Hopen. cbv zeta.
  destruct (opening_clean_inv _ _ _ Hopen) as (Hinv0 & Hfield0).
  pose proof (play_inv poems evs s0 Hinv0) as (Hinv & Ht & Hc & Hp).
  pose proof (play_field_inv poems evs s0 Hnd Hinv0 Hfield0) as [Hpool Hshape].
  destruct (field_facts poems g evs s0 Hnd Harray Hopen)
    as (_ & Hle & Hcards & Hrem).
  destruct (App.play evs s0) as [[e sm busy] pend]. simpl in *.
  pose proof (inv_total _ _ Hinv) as Htotal.
  unfold isGameOver. split.
  - intros Hover.
    assert (_score e = _currentRound e ∧ _currentRound e = _totalRounds e)
      as [Hs Hr].
    { destruct pend as [|k [|k' rest]].
      - destruct Hshape as [Hs Hend]. split; [done|by apply Hend].
      - destruct k.
        + destruct Hp as [_ Hlive]. congruence.
        + destruct Hshape as [Hs Hend]. split; [done|by apply Hend].
      - exfalso. by destruct k. }
    assert (length (_remainingCards e) = 0) as Hnil by lia.
    apply length_zero_iff_nil in Hnil.
    split_and!; [done|lia|done|].
    rewrite Hrem, Hnil. done.
  - intros ->.
    destruct pend as [|k [|k' rest]].
    + destruct Hshape as [Hs Hend]. rewrite Hend.
      rewrite <- length_zero_iff_nil. lia.
    + destruct k; [by destruct Hp|done].
    + exfalso. by destruct k.
Qed.

Lemma game_over_means_all_taken_witness :
  let s := App.play [App.Click 2; App.Settle; App.Click 3; App.Settle;
                     App.Click 1; App.Settle] sample_session in
  App.opening sample_poems sample_rng [] = Some sample_session
  ∧ isGameOver (App.gameEngine (App.app s)) = true
  ∧ _remainingCards (App.gameEngine (App.app s)) = []
  ∧ _score (App.gameEngine (App.app s)) = 3.
Proof.
  intros s.
  assert (NoDup (id <$> sample_poems)) as Hnd
    by (by apply (bool_decide_unpack _)).
  assert (Z.of_nat (length sample_poems) < 2 ^ 32)%Z as Harray
    by (by vm_compute).
  destruct (game_over_means_all_taken sample_poems sample_rng
              [App.Click 2; App.Settle; App.Click 3; App.Settle;
               App.Click 1; App.Settle] sample_session Hnd Harray eq_refl)
    as [Hover _].
  destruct (Hover eq_refl) as (Hnil & Hscore & _).
  split_and!; [reflexivity|reflexivity|exact Hnil|exact Hscore].
Defined.
